(** * Miracle-Matcher: league partitioning and match scheduling

    A shallow embedding of [app/main.py]: the dataclasses [Team] and
    [League], the greedy partitioner [divide_into_leagues] and the
    backtracking scheduler [generate_matches_for_league] with its inner
    closure [_find_matches_recursive].

    Python integers are mathematical integers ([Z]); the dictionary
    [match_counts] is a [gmap Z Z]; list indexing is stdpp's [!!], with
    Python's exceptions made explicit. The calls into [random] are taken
    as parameters: [random.shuffle] and [random.sample] as functions that
    return some rearrangement of their argument, [random.choice] as an
    index drawn from a stream of raw draws. *)

From Stdlib Require Import ZArith Lia Sorted.
From stdpp Require Import gmap strings pretty list fin_maps.

Open Scope Z_scope.

(** ** Data model *)

(** [class Team]: [id: int], [name: str], [region: str]. *)
Record Team : Type := mkTeam { id : Z; name : string; region : string }.

#[export] Instance Team_eq_dec : EqDecision Team.
Proof. solve_decision. Defined.

(** [class League]: [name: str], [teams: List[Team]],
    [matches: List[Tuple[Team, Team]]]. The field [name] of the source is
    [league_name] here, since [Team] already has a [name]. *)
Record League : Type := mkLeague {
  league_name : string;
  teams : list Team;
  matches : list (Team * Team)
}.

#[export] Instance League_eq_dec : EqDecision League.
Proof. solve_decision. Defined.

(** ** Exceptions and the scheduler's monad

    The closure [_find_matches_recursive] reads a dictionary, indexes a
    list and assigns [league.matches]. A computation is a function of the
    league object it may assign to, and either raises or returns a value
    with the league as it leaves it. [RecursionDepth] is the model's own:
    the recursion below is driven by a bound on the call depth, which
    [generate_matches_for_league] sets high enough never to be met. The
    recursion limit of the Python interpreter is not part of the model. *)
Inductive exn : Type := KeyError | IndexError | RecursionDepth.

Definition M (A : Type) : Type := League -> exn + (A * League).

Definition ret {A : Type} (a : A) : M A := fun lg => inr (a, lg).

Definition raise {A : Type} (e : exn) : M A := fun _ => inl e.

Definition bind {A B : Type} (c : M A) (k : A -> M B) : M B :=
  fun lg => match c lg with
            | inl e => inl e
            | inr (a, lg') => k a lg'
            end.

Declare Scope sched_scope.
Delimit Scope sched_scope with sched.
Notation "x <- c ;; k" := (bind c (fun x => k))
  (at level 200, c at level 99, right associativity) : sched_scope.
Notation "c ;;; k" := (bind c (fun _ => k))
  (at level 200, right associativity) : sched_scope.

(** [league.matches = ms] *)
Definition set_matches (ms : list (Team * Team)) : M unit :=
  fun lg => inr (tt, mkLeague (league_name lg) (teams lg) ms).

(** [d[k]] on a dictionary. *)
Definition get_item (d : gmap Z Z) (k : Z) : M Z :=
  match d !! k with
  | Some v => ret v
  | None => raise KeyError
  end.

(** [d[k] += 1] *)
Definition incr_item (d : gmap Z Z) (k : Z) : M (gmap Z Z) :=
  (c <- get_item d k ;; ret (<[k := c + 1]> d))%sched.

(** [l[i]] on a list. *)
Definition get_index {A : Type} (l : list A) (i : nat) : M A :=
  match l !! i with
  | Some v => ret v
  | None => raise IndexError
  end.

(** ** Match Scheduler *)

(** [tuple(sorted((a, b), key=lambda t: t.id))]: a stable sort of two
    elements swaps them only when the second key is strictly smaller. *)
Definition sorted_pair (a b : Team) : Team * Team :=
  if id b <? id a then (b, a) else (a, b).

(** The double loop over [range(len(teams))] and [range(i + 1, len(teams))]
    that fills [possible_pairs], before the shuffle. *)
Definition possible_pairs (teams : list Team) : list (Team * Team) :=
  i ← seq 0 (length teams);
  j ← seq (i + 1) (length teams - (i + 1));
  match teams !! i, teams !! j with
  | Some ti, Some tj =>
      if bool_decide (region ti ≠ region tj) then [sorted_pair ti tj] else []
  | _, _ => []
  end.

(** [{team.id: 0 for team in teams}]: later teams overwrite earlier keys. *)
Definition initial_match_counts (teams : list Team) : gmap Z Z :=
  foldl (fun d t => <[id t := 0]> d) ∅ teams.

(** [all(count == num_matches_per_team for count in match_counts.values())] *)
Definition goal_reached (num_matches_per_team : Z) (match_counts : gmap Z Z) : bool :=
  bool_decide (map_Forall (fun _ count => count = num_matches_per_team) match_counts).

(** The inner closure. [possible_pairs] and [num_matches_per_team] are the
    variables it captures; [fuel] bounds the depth of the call stack. *)
Fixpoint _find_matches_recursive
    (possible_pairs : list (Team * Team)) (num_matches_per_team : Z)
    (fuel : nat)
    (matches : list (Team * Team)) (match_counts : gmap Z Z) (pair_idx : nat)
    : M bool :=
  match fuel with
  | O => raise RecursionDepth
  | S fuel =>
    if goal_reached num_matches_per_team match_counts then
      (set_matches matches ;;; ret true)%sched
    else if (length possible_pairs <=? pair_idx)%nat then
      ret false
    else
      (pr <- get_index possible_pairs pair_idx ;;
       let '(team1, team2) := pr in
       c1 <- get_item match_counts (id team1) ;;
       below <- (if c1 <? num_matches_per_team then
                   c2 <- get_item match_counts (id team2) ;;
                   ret (c2 <? num_matches_per_team)
                 else ret false) ;;
       included <- (if below : bool then
                      let new_matches := matches ++ [(team1, team2)] in
                      new_counts <- incr_item match_counts (id team1) ;;
                      new_counts <- incr_item new_counts (id team2) ;;
                      _find_matches_recursive possible_pairs num_matches_per_team
                        fuel new_matches new_counts (pair_idx + 1)
                    else ret false) ;;
       if included : bool then ret true
       else
         skipped <- _find_matches_recursive possible_pairs num_matches_per_team
                      fuel matches match_counts (pair_idx + 1) ;;
         if skipped : bool then ret true else ret false)%sched
  end.

(** [generate_matches_for_league(league, num_matches_per_team)].
    [shuffle] stands for [random.shuffle]. The depth bound handed to the
    search is one frame per candidate plus the frame that sees the end of
    the list. *)
Definition generate_matches_for_league
    (shuffle : list (Team * Team) -> list (Team * Team))
    (num_matches_per_team : Z) : M bool :=
  fun league =>
    let teams := teams league in
    let possible_pairs := shuffle (possible_pairs teams) in
    let initial_match_counts := initial_match_counts teams in
    _find_matches_recursive possible_pairs num_matches_per_team
      (S (length possible_pairs)) [] initial_match_counts 0 league.

(** ** League Partitioner *)

(** [f'リーグ{i+1}'] *)
Definition league_label (i : nat) : string := "リーグ" +:+ pretty (i + 1)%nat.

(** [sum(1 for t in lg.teams if t.region == team.region)] *)
Definition region_count (team : Team) (lg : League) : nat :=
  length (filter (fun t => region t = region team) (teams lg)).

(** The loop over [enumerate(leagues)] that collects the leagues with room
    left. A league object is referred to by its position in [leagues]
    together with the object as it stands: nothing is appended between this
    loop and the choice. [i] is the position of the head of [leagues]. *)
Fixpoint available_leagues (league_sizes : list Z) (i : nat) (leagues : list League)
    : exn + list (nat * League) :=
  match leagues with
  | [] => inr []
  | league :: rest =>
      match league_sizes !! i with
      | None => inl IndexError
      | Some size =>
          match available_leagues league_sizes (S i) rest with
          | inl e => inl e
          | inr found =>
              inr (if Z.of_nat (length (teams league)) <? size
                   then (i, league) :: found else found)
          end
      end
  end.

(** [sorted(l, key=key)]: Python's sort is stable, so its result is the one
    of any stable sort; this one inserts each element before the first
    element whose key is not smaller. *)
Fixpoint insert_by_key {A : Type} (key : A -> nat) (x : A) (l : list A) : list A :=
  match l with
  | [] => [x]
  | y :: l' => if (key x <=? key y)%nat then x :: l else y :: insert_by_key key x l'
  end.

Definition sorted {A : Type} (l : list A) (key : A -> nat) : list A :=
  foldr (insert_by_key key) [] l.

(** [random.choice(seq)] is [seq[randbelow(len(seq))]]; [draw] is the raw
    draw it reduces below the length. *)
Definition random_choice {A : Type} (draw : nat) (l : list A) : exn + A :=
  match l !! (draw `mod` length l)%nat with
  | Some x => inr x
  | None => inl IndexError
  end.

(** One pass of the body of [for team in shuffled_teams] up to the choice:
    [None] is the branch that prints the error and returns [None]. *)
Definition choose_league (draw : nat) (league_sizes : list Z)
    (leagues : list League) (team : Team) : exn + option (nat * League) :=
  match available_leagues league_sizes 0 leagues with
  | inl e => inl e
  | inr [] => inr None
  | inr available =>
      let key := fun lg : nat * League => region_count team lg.2 in
      let best_leagues := sorted available key in
      match best_leagues !! 0%nat with
      | None => inl IndexError
      | Some first =>
          let min_region_count := key first in
          let best_options :=
            filter (fun lg => key lg = min_region_count) best_leagues in
          match random_choice draw best_options with
          | inl e => inl e
          | inr chosen_league => inr (Some chosen_league)
          end
      end
  end.

(** [chosen_league.teams.append(team)], on the object at position [i]. *)
Definition append_team (leagues : list League) (i : nat) (lg : League) (team : Team)
    : list League :=
  <[i := mkLeague (league_name lg) (teams lg ++ [team]) (matches lg)]> leagues.

(** The loop [for team in shuffled_teams]; [k] counts the iterations, the
    k-th one uses the k-th draw. *)
Fixpoint place_teams (draws : nat -> nat) (league_sizes : list Z) (k : nat)
    (shuffled_teams : list Team) (leagues : list League)
    : exn + option (list League) :=
  match shuffled_teams with
  | [] => inr (Some leagues)
  | team :: rest =>
      match choose_league (draws k) league_sizes leagues team with
      | inl e => inl e
      | inr None => inr None
      | inr (Some (i, chosen_league)) =>
          place_teams draws league_sizes (S k) rest
            (append_team leagues i chosen_league team)
      end
  end.

(** [[League(name=f'リーグ{i+1}') for i in range(len(league_sizes))]] *)
Definition fresh_leagues (league_sizes : list Z) : list League :=
  (fun i => mkLeague (league_label i) [] []) <$> seq 0 (length league_sizes).

(** [divide_into_leagues(teams, league_sizes)]. [sample] stands for
    [random.sample(teams, len(teams))], [draws] for the successive draws of
    [random.choice]. *)
Definition divide_into_leagues
    (sample : list Team -> list Team) (draws : nat -> nat)
    (teams : list Team) (league_sizes : list Z) : exn + option (list League) :=
  let leagues := fresh_leagues league_sizes in
  let shuffled_teams := sample teams in
  place_teams draws league_sizes 0 shuffled_teams leagues.

(** ** Configuration and team catalog *)

(** [REGION_DEFINITIONS]: the dictionary literal, as the list of its items
    in insertion order, the order in which [.items()] yields them. *)
Definition REGION_DEFINITIONS : list (string * Z) :=
  [("A", 2); ("B", 1); ("C", 2); ("D", 6); ("E", 1); ("F", 1); ("G", 5)].

Definition LEAGUE_SIZES : list Z := [6; 4; 4; 4].

Definition MATCHES_PER_TEAM : Z := 3.

(** [f'チーム{region}-{i}'] *)
Definition team_name (region : string) (i : Z) : string :=
  "チーム" +:+ region +:+ "-" +:+ pretty i.

(** The inner loop [for i in range(1, count + 1)] of [create_teams], on the
    state made of [teams] and [team_id_counter]. *)
Definition add_region_teams (region : string) (count : Z)
    (st : list Team * Z) : list Team * Z :=
  foldl (λ '(teams, team_id_counter) i,
           (teams ++ [mkTeam team_id_counter (team_name region i) region],
            team_id_counter + 1))
        st (seqZ 1 count).

(** [create_teams()], with the dictionary it loops over as an argument. *)
Definition create_teams_from (region_definitions : list (string * Z)) : list Team :=
  (foldl (λ st '(region, count), add_region_teams region count st)
         ([], 1) region_definitions).1.

Definition create_teams : list Team := create_teams_from REGION_DEFINITIONS.

(** ** The trial loop

    [main] prints and returns nothing; here the console is the list of the
    strings given to [print], one per call, and the model also hands back
    the leagues that stand when the loop is left. The module constants that
    [main] and [create_teams] read are arguments of the functions below and
    are put back in [main]. *)

(** The randomness of a run: for each attempt, what [random.sample]
    returns and the draws of [random.choice] in [divide_into_leagues], and
    for each league of the attempt what [random.shuffle] does in
    [generate_matches_for_league]. *)
Record Random : Type := mkRandom {
  sample_of : nat → list Team → list Team;
  draws_of : nat → nat → nat;
  shuffle_of : nat → nat → list (Team * Team) → list (Team * Team)
}.

(** The character of [\n]. *)
Definition nl : string := String (Ascii.ascii_of_nat 10) "".

(** [sorted(l, key=key)] for keys compared by [leb]: as [sorted] above,
    each element goes before the first one whose key is not smaller. *)
Fixpoint insert_with {A K : Type} (leb : K → K → bool) (key : A → K)
    (x : A) (l : list A) : list A :=
  match l with
  | [] => [x]
  | y :: l' => if leb (key x) (key y) then x :: l else y :: insert_with leb key x l'
  end.

Definition sorted_with {A K : Type} (leb : K → K → bool)
    (l : list A) (key : A → K) : list A :=
  foldr (insert_with leb key) [] l.

(** Python's [<=] on pairs of integers. *)
Definition tuple_leb (a b : Z * Z) : bool :=
  (a.1 <? b.1) || ((a.1 =? b.1) && (a.2 <=? b.2)).

(** The loop [for league in leagues] of [main] with its [break]: the flag
    [all_leagues_ok], the leagues as the loop leaves them, and what it
    prints. [i] is the position of the head of [leagues]. *)
Fixpoint schedule_leagues (shuffles : nat → list (Team * Team) → list (Team * Team))
    (matches_per_team : Z) (i : nat) (leagues : list League)
    : exn + (bool * list League * list string) :=
  match leagues with
  | [] => inr (true, [], [])
  | league :: rest =>
      let announce := league_name league +:+ "の対戦カードを作成中..." in
      match generate_matches_for_league (shuffles i) matches_per_team league with
      | inl e => inl e
      | inr (false, league) =>
          inr (false, league :: rest,
               [announce;
                league_name league +:+ "で条件に合う対戦が見つかりませんでした。"])
      | inr (true, league) =>
          match schedule_leagues shuffles matches_per_team (S i) rest with
          | inl e => inl e
          | inr (all_leagues_ok, rest, out) =>
              inr (all_leagues_ok, league :: rest, announce :: out)
          end
      end
  end.

(** What the report prints for one league. *)
Definition report_league (league : League) : list string :=
  let sorted_teams := sorted_with Z.leb (teams league) id in
  let sorted_matches :=
    sorted_with tuple_leb (matches league) (λ m, (id m.1, id m.2)) in
  [nl +:+ "【" +:+ league_name league +:+ "】 (計"
      +:+ pretty (length (teams league)) +:+ "チーム)";
   "  [所属チーム]"]
  ++ ((λ team, "    - " +:+ name team +:+ " (地域: " +:+ region team +:+ ")")
        <$> sorted_teams)
  ++ ["  [対戦カード]"]
  ++ ((λ m : Team * Team, "    - " +:+ name m.1 +:+ " vs " +:+ name m.2)
        <$> sorted_matches).

(** The report of a successful attempt. *)
Definition report (leagues : list League) : list string :=
  [nl +:+ "やったー！ 最高の組み合わせが見つかりました！";
   "========================================"]
  ++ (leagues ≫= report_league)
  ++ ["========================================"].

(** One pass of the body of [while True]: [Some leagues] when the pass
    ends in [break], [None] when the loop goes round again, with what the
    pass prints. The line that [divide_into_leagues] prints before it
    returns [None] is printed here. *)
Definition attempt (region_definitions : list (string * Z))
    (league_sizes : list Z) (matches_per_team : Z)
    (rnd : Random) (attempt_count : nat)
    : exn + (option (list League) * list string) :=
  let opening :=
    [nl +:+ "--- 試行 " +:+ pretty attempt_count +:+ "回目 ---";
     "リーグ分けを試みています..."] in
  let all_teams := create_teams_from region_definitions in
  match divide_into_leagues (sample_of rnd attempt_count) (draws_of rnd attempt_count)
          all_teams league_sizes with
  | inl e => inl e
  | inr None =>
      inr (None,
           opening ++ ["エラー: チームを割り振れるリーグがありません。";
                       "リーグ分けに失敗しました。リトライします。"])
  | inr (Some leagues) =>
      match schedule_leagues (shuffle_of rnd attempt_count) matches_per_team
              0 leagues with
      | inl e => inl e
      | inr (true, leagues, out) =>
          inr (Some leagues, opening ++ out ++ report leagues)
      | inr (false, _, out) =>
          inr (None,
               opening ++ out
               ++ ["組み合わせが見つからなかったので、リーグ分けからやり直しますね！"])
      end
  end.

(** The loop [while True], for at most [fuel] passes: [None] when the
    loop is still running after them. *)
Fixpoint trial_loop (region_definitions : list (string * Z))
    (league_sizes : list Z) (matches_per_team : Z)
    (rnd : Random) (fuel : nat) (attempt_count : nat)
    : exn + (option (list League) * list string) :=
  match fuel with
  | O => inr (None, [])
  | S fuel =>
      let attempt_count := S attempt_count in
      match attempt region_definitions league_sizes matches_per_team
              rnd attempt_count with
      | inl e => inl e
      | inr (Some leagues, out) => inr (Some leagues, out)
      | inr (None, out) =>
          match trial_loop region_definitions league_sizes matches_per_team
                  rnd fuel attempt_count with
          | inl e => inl e
          | inr (result, out') => inr (result, out ++ out')
          end
      end
  end.

(** [main()] with its constants as arguments. *)
Definition main_with (region_definitions : list (string * Z))
    (league_sizes : list Z) (matches_per_team : Z)
    (rnd : Random) (fuel : nat) : exn + (option (list League) * list string) :=
  match trial_loop region_definitions league_sizes matches_per_team rnd fuel 0 with
  | inl e => inl e
  | inr (result, out) => inr (result, "リーグの組み分けを開始しますね！" :: out)
  end.

(** [main()] *)
Definition main (rnd : Random) (fuel : nat)
    : exn + (option (list League) * list string) :=
  main_with REGION_DEFINITIONS LEAGUE_SIZES MATCHES_PER_TEAM rnd fuel.

(** ** Vocabulary of the properties *)

(** Python's [t in m] for a match tuple [m]. *)
Definition plays_in (t : Team) (m : Team * Team) : Prop := t = m.1 ∨ t = m.2.

#[export] Instance plays_in_dec t m : Decision (plays_in t m).
Proof. unfold plays_in. apply _. Defined.

(** The number of matches of [ms] in which [t] appears. *)
Definition matches_played (t : Team) (ms : list (Team * Team)) : nat :=
  length (filter (plays_in t) ms).

(** Two match tuples that join the same two teams, in either order. *)
Definition same_pairing (p q : Team * Team) : Prop :=
  p = q ∨ (p.1 = q.2 ∧ p.2 = q.1).

(** All the teams placed so far, league after league. *)
Definition placed (leagues : list League) : list Team := concat (teams <$> leagues).

(** [sum(league_sizes)] *)
Definition total_size (league_sizes : list Z) : Z := foldr Z.add 0 league_sizes.

(** What the include branch does to the counts: [d[a.id] += 1] and then
    [d[b.id] += 1], read with a default for absent keys. *)
Definition bump (d : gmap Z Z) (m : Team * Team) : gmap Z Z :=
  let d1 := <[id m.1 := d !!! id m.1 + 1]> d in
  <[id m.2 := d1 !!! id m.2 + 1]> d1.

(** The number of slots of [ms] filled by a team whose id is [k]. *)
Definition slots (k : Z) (ms : list (Team * Team)) : Z :=
  foldr (λ m acc, (if decide (id m.1 = k) then 1 else 0)
                  + (if decide (id m.2 = k) then 1 else 0) + acc) 0 ms.

(** The candidates that pair [t] with the teams after it. *)
Definition pairs_with (t : Team) (ts : list Team) : list (Team * Team) :=
  u ← ts; if bool_decide (region t ≠ region u) then [sorted_pair t u] else [].

(** Every id met in [pairs] is a key of [counts]. *)
Definition keys_known (counts : gmap Z Z) (pairs : list (Team * Team)) : Prop :=
  Forall (λ p, is_Some (counts !! id p.1) ∧ is_Some (counts !! id p.2)) pairs.

(** ** Sample teams and leagues *)

Definition tA : Team := mkTeam 1 "a1" "A".

Definition tB : Team := mkTeam 2 "b1" "B".

Definition tC : Team := mkTeam 3 "c1" "C".

Definition tA2 : Team := mkTeam 4 "a2" "A".

Definition tB2 : Team := mkTeam 5 "b2" "B".

Definition lg4 : League := mkLeague "L" [tA; tB; tC; tA2] [].

Definition lg4_scheduled : League :=
  mkLeague "L" [tA; tB; tC; tA2] [(tC, tA2); (tB, tA2); (tA, tC); (tA, tB)].

Definition lg4_played : League :=
  mkLeague "L" [tA; tB; tC; tA2] [(tA, tB)].

Definition twinX : Team := mkTeam 1 "x" "A".

Definition twinY : Team := mkTeam 1 "y" "B".

Definition twins : League := mkLeague "L" [twinX; twinY] [].

Definition two_leagues : list League :=
  [mkLeague "リーグ1" [tA; tB] []; mkLeague "リーグ2" [tC] []].

Definition one_region : League :=
  mkLeague "L"
    [mkTeam 1 "d1" "D"; mkTeam 2 "d2" "D"; mkTeam 3 "d3" "D"; mkTeam 4 "d4" "D"] [].

Definition two_teams : League := mkLeague "L" [tA; tB] [].

(** ** Vocabulary of the further properties *)

(** Starting from the counts [d], the matches [ms] bring every count to [n]. *)
Definition meets_target (n : Z) (d : gmap Z Z) (ms : list (Team * Team)) : Prop :=
  ∀ k v, d !! k = Some v → v + slots k ms = n.

(** The teams of [ts] that [t] may meet: those of another region. *)
Definition other_region_teams (t : Team) (ts : list Team) : list Team :=
  filter (λ u, region u ≠ region t) ts.

(** The team that [t] meets in the match [m]. *)
Definition opponent (t : Team) (m : Team * Team) : Team :=
  if decide (m.1 = t) then m.2 else m.1.

(** The sum of [f] over a list. *)
Definition sum_with {A : Type} (f : A → Z) (l : list A) : Z :=
  foldr (λ x acc, f x + acc) 0 l.

(** The number of teams the leagues can take: a size below 0 counts as 0. *)
Definition capacity (league_sizes : list Z) : Z := total_size (Z.max 0 <$> league_sizes).

(** Every rearrangement in [rnd] is one: [random.sample] and
    [random.shuffle] return their argument in some order. *)
Definition permuting (rnd : Random) : Prop :=
  (∀ a l, sample_of rnd a l ≡ₚ l) ∧ (∀ a i l, shuffle_of rnd a i l ≡ₚ l).

(** The league's matches give every team [n] matches, join league teams of
    different regions, and hold no pair of teams twice. *)
Definition valid_schedule (n : Z) (lg : League) : Prop :=
  (∀ t, t ∈ teams lg → Z.of_nat (matches_played t (matches lg)) = n)
  ∧ (∀ a b, (a, b) ∈ matches lg →
            a ∈ teams lg ∧ b ∈ teams lg ∧ region a ≠ region b)
  ∧ (∀ i j p q, i ≠ j → matches lg !! i = Some p → matches lg !! j = Some q →
                ¬ same_pairing p q).

(** A source of randomness that rearranges nothing and draws 0, 1, 2, ... *)
Definition plain : Random := mkRandom (λ _ l, l) (λ _ k, k) (λ _ _ l, l).

(** One that reverses what it is given and draws the attempt number. *)
Definition backwards : Random :=
  mkRandom (λ _ l, reverse l) (λ a _, a) (λ _ _ l, reverse l).

(** One that turns the list of teams by the attempt number. *)
Definition turning : Random :=
  mkRandom (λ a l, rotate a l) (λ a k, (a + k * (a + 1))%nat) (λ _ _ l, l).

(** Three teams of three regions in one league, one match each. *)
Definition odd_regions : list (string * Z) := [("A", 1); ("B", 1); ("C", 1)].

Definition lg3 : League := mkLeague "L" [tA; tB; tC] [].

(** A league without teams that still carries a match. *)
Definition lg0 : League := mkLeague "L" [] [(tA, tB)].

Definition divided_5 : list League :=
  [mkLeague "リーグ1" [tA; tC; tB2] []; mkLeague "リーグ2" [tB; tA2] []].

(** A run of [main] that is accepted: the leagues it ends with and what
    it prints. *)
Definition turning_leagues : list League :=
  Eval vm_compute in
    match main turning 300 with inr (Some leagues, _) => leagues | _ => [] end.

Definition turning_out : list string :=
  Eval vm_compute in
    match main turning 300 with inr (_, out) => out | _ => [] end.

(** *** Small runs *)

Example possible_pairs_lg4 :
  possible_pairs (teams lg4) = [(tA, tB); (tA, tC); (tB, tC); (tB, tA2); (tC, tA2)].
Proof. vm_compute. reflexivity. Qed.

Example generate_lg4_2 :
  generate_matches_for_league (fun l => l) 2 lg4
  = inr (true, mkLeague "L" [tA; tB; tC; tA2] [(tA, tB); (tA, tC); (tB, tA2); (tC, tA2)]).
Proof. vm_compute. reflexivity. Qed.

Example generate_lg4_3 :
  generate_matches_for_league (fun l => l) 3 lg4 = inr (false, lg4).
Proof. vm_compute. reflexivity. Qed.

(** Four teams of one region and a target of 1: no candidate, no schedule. *)
Example generate_one_region :
  possible_pairs (teams one_region) = []
  ∧ generate_matches_for_league (fun l => l) 1 one_region = inr (false, one_region).
Proof. vm_compute. split; reflexivity. Qed.

(** Two teams of different regions and a target of 1: the one candidate is
    the schedule. *)
Example generate_two_teams :
  possible_pairs (teams two_teams) = [(tA, tB)]
  ∧ generate_matches_for_league (fun l => l) 1 two_teams
    = inr (true, mkLeague "L" [tA; tB] [(tA, tB)]).
Proof. vm_compute. split; reflexivity. Qed.

Example divide_5 :
  divide_into_leagues (fun l => l) (fun k => k) [tA; tB; tC; tA2; tB2] [3; 2]
  = inr (Some [mkLeague "リーグ1" [tA; tC; tB2] []; mkLeague "リーグ2" [tB; tA2] []]).
Proof. vm_compute. reflexivity. Qed.

Example divide_too_small :
  divide_into_leagues (fun l => l) (fun k => k) [tA; tB; tC] [1; 1] = inr None.
Proof. vm_compute. reflexivity. Qed.

(** ** Properties of the search *)

Lemma incr_item_inr d k d' lg lg' :
  incr_item d k lg = inr (d', lg') →
  lg' = lg ∧ d' = <[k := d !!! k + 1]> d ∧ is_Some (d !! k).
Proof.
  unfold incr_item, bind, get_item, ret, raise.
  destruct (d !! k) as [c|] eqn:E; [|done].
  intros [= <- <-]. rewrite (lookup_total_correct _ _ _ E). eauto.
Qed.

Lemma get_index_inr {A} (l : list A) i x lg lg' :
  get_index l i lg = inr (x, lg') → lg' = lg ∧ l !! i = Some x.
Proof.
  unfold get_index, ret, raise. destruct (l !! i); [|done].
  by intros [= <- <-].
Qed.

Lemma get_item_inr d k v lg lg' :
  get_item d k lg = inr (v, lg') → lg' = lg ∧ d !! k = Some v.
Proof.
  unfold get_item, ret, raise. destruct (d !! k); [|done].
  by intros [= <- <-].
Qed.

(** A run of the search that returns: on [False] the league is untouched;
    on [True] the league's matches are the matches so far followed by a
    selection [extra], in order, of the candidates from [pair_idx] on, and
    the counts bumped along [extra] meet the goal. *)
Lemma find_returns pairs n fuel :
  ∀ ms counts idx lg b lg',
    _find_matches_recursive pairs n fuel ms counts idx lg = inr (b, lg') →
    if b then
      ∃ extra, sublist extra (drop idx pairs)
        ∧ lg' = mkLeague (league_name lg) (teams lg) (ms ++ extra)
        ∧ goal_reached n (foldl bump counts extra) = true
    else lg' = lg.
Proof.
  induction fuel as [|fuel IH]; intros ms counts idx lg b lg'; simpl; [done|].
  destruct (goal_reached n counts) eqn:Hgoal.
  { unfold bind, set_matches, ret. intros [= <- <-].
    exists []. rewrite app_nil_r. split; [apply sublist_nil_l|done]. }
  destruct (length pairs <=? idx)%nat eqn:Hlen.
  { unfold ret. by intros [= <- <-]. }
  unfold bind at 1.
  destruct (get_index pairs idx lg) as [e|[[t1 t2] lg1]] eqn:Hpr; [done|].
  apply get_index_inr in Hpr as [-> Hpr].
  rewrite (drop_S _ _ _ Hpr).
  unfold bind at 1.
  destruct (get_item counts (id t1) lg) as [e|[c1 lg1]] eqn:Hc1; [done|].
  apply get_item_inr in Hc1 as [-> Hc1].
  unfold bind at 1.
  set (guard := if c1 <? n then _ else _).
  destruct (guard lg) as [e|[below lg1]] eqn:Hguard; [done|].
  assert (lg1 = lg) as ->.
  { subst guard. destruct (c1 <? n).
    - unfold bind in Hguard.
      destruct (get_item counts (id t2) lg) as [e|[c2 lg2]] eqn:Hc2; [done|].
      apply get_item_inr in Hc2 as [-> _]. by injection Hguard.
    - by injection Hguard. }
  clear guard Hguard.
  unfold bind at 1.
  set (incl := if below then _ else _).
  destruct (incl lg) as [e|[included lg1]] eqn:Hincl; [done|].
  assert (if included then
            ∃ extra, sublist extra (drop (S idx) pairs)
              ∧ lg1 = mkLeague (league_name lg) (teams lg) (ms ++ (t1, t2) :: extra)
              ∧ goal_reached n (foldl bump counts ((t1, t2) :: extra)) = true
          else lg1 = lg) as Hinc.
  { subst incl. destruct below.
    - unfold bind at 1 in Hincl.
      destruct (incr_item counts (id t1) lg) as [e|[d1 lg2]] eqn:Hd1; [done|].
      apply incr_item_inr in Hd1 as (-> & -> & _).
      unfold bind at 1 in Hincl.
      destruct (incr_item _ (id t2) lg) as [e|[d2 lg2]] eqn:Hd2; [done|].
      apply incr_item_inr in Hd2 as (-> & -> & _).
      apply IH in Hincl. destruct included; [|done].
      destruct Hincl as (extra & Hsub & -> & Hg).
      exists extra. rewrite <- app_assoc, Nat.add_1_r in *. done.
    - injection Hincl as <- <-. done. }
  clear incl Hincl.
  destruct included.
  { unfold ret. intros [= <- <-].
    destruct Hinc as (extra & Hsub & -> & Hg).
    exists ((t1, t2) :: extra). split; [by apply sublist_skip|done]. }
  subst lg1. unfold bind at 1.
  destruct (_find_matches_recursive _ _ _ _ _ _ lg) as [e|[skipped lg1]] eqn:Hskip; [done|].
  apply IH in Hskip. rewrite Nat.add_1_r in Hskip.
  destruct skipped; unfold ret; intros [= <- <-]; [|done].
  destruct Hskip as (extra & Hsub & -> & Hg).
  exists extra. split; [by apply sublist_cons|done].
Qed.

(** ** The candidate list *)

Lemma bind_seq_shift {B} (f : nat → list B) a n :
  (j ← seq (S a) n; f j) = (j ← seq a n; f (S j)).
Proof.
  revert a. induction n as [|n IH]; intros a; [done|].
  simpl. by rewrite IH.
Qed.

Lemma bind_seq_lookup {A B} (l : list A) (g : option A → list B) :
  (j ← seq 0 (length l); g (l !! j)) = (u ← l; g (Some u)).
Proof.
  induction l as [|x l IH]; [done|].
  simpl. rewrite bind_seq_shift. simpl. by rewrite IH.
Qed.

(** The index loops, read off the structure of the list. *)
Lemma possible_pairs_cons t ts :
  possible_pairs (t :: ts) = pairs_with t ts ++ possible_pairs ts.
Proof.
  unfold possible_pairs at 1. simpl length. simpl seq.
  rewrite bind_cons. f_equal.
  - simpl. rewrite Nat.sub_0_r, bind_seq_shift. simpl.
    apply (bind_seq_lookup ts
             (λ o, match o with
                   | Some tj => if bool_decide (region t ≠ region tj)
                                then [sorted_pair t tj] else []
                   | None => []
                   end)).
  - rewrite bind_seq_shift. unfold possible_pairs.
    apply list_bind_ext; [|done]. intros i.
    simpl. rewrite bind_seq_shift. done.
Qed.

Lemma possible_pairs_nil : possible_pairs [] = [].
Proof. done. Qed.

Lemma elem_of_pairs_with t ts p :
  p ∈ pairs_with t ts ↔ ∃ u, u ∈ ts ∧ region t ≠ region u ∧ p = sorted_pair t u.
Proof.
  unfold pairs_with. rewrite list_elem_of_bind. split.
  - intros (u & Hp & Hu). case_bool_decide; [|by apply elem_of_nil in Hp].
    apply list_elem_of_singleton in Hp. eauto.
  - intros (u & Hu & Hr & ->). exists u. split; [|done].
    rewrite bool_decide_eq_true_2 by done. apply list_elem_of_singleton. done.
Qed.

(** Every candidate joins two teams of the league, from different regions,
    the one at the smaller position in [teams] with one after it. *)
Lemma elem_of_possible_pairs teams p :
  p ∈ possible_pairs teams →
  p.1 ∈ teams ∧ p.2 ∈ teams ∧ region p.1 ≠ region p.2.
Proof.
  induction teams as [|t ts IH]; [by intros ?%elem_of_nil|].
  rewrite possible_pairs_cons, elem_of_app, elem_of_pairs_with.
  intros [(u & Hu & Hr & ->)|Hp].
  - unfold sorted_pair. destruct (id u <? id t); simpl;
      repeat split; try (by constructor); try (by constructor 2); congruence.
  - destruct (IH Hp) as (? & ? & ?). repeat split; by try constructor 2.
Qed.

Lemma sorted_pair_ordered t u : id t ≠ id u → id (sorted_pair t u).1 < id (sorted_pair t u).2.
Proof. unfold sorted_pair. destruct (Z.ltb_spec (id u) (id t)); simpl; lia. Qed.

Lemma sorted_pair_members t u p :
  p = sorted_pair t u → (p.1 = t ∧ p.2 = u) ∨ (p.1 = u ∧ p.2 = t).
Proof. intros ->. unfold sorted_pair. destruct (id u <? id t); simpl; auto. Qed.

(** With distinct ids the canonical order is strict: first id below second. *)
Lemma possible_pairs_ordered teams :
  NoDup (id <$> teams) → Forall (λ p, id p.1 < id p.2) (possible_pairs teams).
Proof.
  induction teams as [|t ts IH]; [constructor|].
  rewrite fmap_cons, NoDup_cons. intros [Ht Hts].
  rewrite possible_pairs_cons, Forall_app. split; [|by apply IH].
  apply Forall_forall. intros p (u & Hu & _ & ->)%elem_of_pairs_with.
  apply sorted_pair_ordered. intros Heq. apply Ht. rewrite Heq.
  by apply list_elem_of_fmap_2.
Qed.

(** With distinct ids no candidate is listed twice. *)
Lemma possible_pairs_NoDup teams :
  NoDup (id <$> teams) → NoDup (possible_pairs teams).
Proof.
  induction teams as [|t ts IH]; [constructor|].
  rewrite fmap_cons, NoDup_cons. intros [Ht Hts].
  assert (t ∉ ts) as Hnotin.
  { intros Hin. apply Ht. by apply list_elem_of_fmap_2. }
  rewrite possible_pairs_cons. apply NoDup_app. split_and!.
  - apply NoDup_bind.
    + intros u1 u2 p Hu1 Hu2 Hp1 Hp2.
      destruct (bool_decide (region t ≠ region u1)); [|by apply elem_of_nil in Hp1].
      destruct (bool_decide (region t ≠ region u2)); [|by apply elem_of_nil in Hp2].
      apply list_elem_of_singleton in Hp1, Hp2.
      apply sorted_pair_members in Hp1 as [[H1 H2]|[H1 H2]];
        apply sorted_pair_members in Hp2 as [[H3 H4]|[H3 H4]]; congruence.
    + intros u _. case_bool_decide; [apply NoDup_singleton|constructor].
    + by apply NoDup_fmap_1 in Hts.
  - intros p (u & Hu & _ & Hp)%elem_of_pairs_with Hin.
    apply elem_of_possible_pairs in Hin as (H1 & H2 & _).
    apply sorted_pair_members in Hp as [[E _]|[_ E]]; congruence.
  - by apply IH.
Qed.

(** The candidate list holds at most [C(n, 2)] pairs for [n] teams. *)
Lemma length_pairs_with t ts : (length (pairs_with t ts) ≤ length ts)%nat.
Proof.
  unfold pairs_with. induction ts as [|u ts IH]; [done|].
  rewrite bind_cons, length_app. case_bool_decide; simpl; lia.
Qed.

Lemma length_possible_pairs teams :
  (2 * length (possible_pairs teams) ≤ length teams * (length teams - 1))%nat.
Proof.
  induction teams as [|t ts IH]; [done|].
  rewrite possible_pairs_cons, length_app.
  pose proof (length_pairs_with t ts). simpl length.
  destruct (length ts) as [|m] eqn:E; simpl in *; [lia|].
  rewrite Nat.sub_0_r in *. nia.
Qed.

(** ** Counting *)

Lemma bump_lookup_total d m k :
  bump d m !!! k = d !!! k + slots k [m].
Proof.
  unfold bump, slots. simpl.
  rewrite !lookup_total_insert.
  destruct m as [a b]; simpl.
  destruct (decide (id a = k)) as [<-|Ha]; destruct (decide (id b = id a)) as [Hb|Hb];
    repeat case_decide; subst; try congruence; lia.
Qed.

Lemma foldl_bump_lookup_total extra : ∀ d k,
  foldl bump d extra !!! k = d !!! k + slots k extra.
Proof.
  induction extra as [|m extra IH]; intros d k; simpl; [lia|].
  rewrite IH, bump_lookup_total. simpl. lia.
Qed.

Lemma bump_is_Some d m k : is_Some (d !! k) → is_Some (bump d m !! k).
Proof.
  intros H. unfold bump. rewrite !lookup_insert_is_Some'. auto.
Qed.

Lemma foldl_bump_is_Some extra : ∀ d k,
  is_Some (d !! k) → is_Some (foldl bump d extra !! k).
Proof.
  induction extra as [|m extra IH]; intros d k H; simpl; [done|].
  by apply IH, bump_is_Some.
Qed.

Lemma foldl_insert_zero_lookup ts : ∀ (d : gmap Z Z) k,
  foldl (λ d t, <[id t := 0]> d) d ts !! k
  = if decide (k ∈ id <$> ts) then Some 0 else d !! k.
Proof.
  induction ts as [|t ts IH]; intros d k.
  - done.
  - simpl foldl. rewrite IH, fmap_cons.
    destruct (decide (k ∈ id <$> ts)) as [Hin|Hnin];
      destruct (decide (k ∈ id t :: (id <$> ts))) as [Hin'|Hnin']; try done.
    + exfalso. apply Hnin'. by constructor 2.
    + apply elem_of_cons in Hin' as [->|?]; [|done]. by rewrite lookup_insert_eq.
    + rewrite lookup_insert_ne; [done|]. intros <-. apply Hnin'. constructor.
Qed.

(** The initial dictionary has exactly the ids of the teams as keys, all at 0. *)
Lemma initial_match_counts_lookup ts k :
  initial_match_counts ts !! k = if decide (k ∈ id <$> ts) then Some 0 else None.
Proof. unfold initial_match_counts. by rewrite foldl_insert_zero_lookup. Qed.

Lemma initial_match_counts_team ts t :
  t ∈ ts → initial_match_counts ts !! id t = Some 0.
Proof.
  intros Hin. rewrite initial_match_counts_lookup, decide_True; [done|].
  by apply list_elem_of_fmap_2.
Qed.

Lemma goal_reached_lookup n d k v :
  goal_reached n d = true → d !! k = Some v → v = n.
Proof.
  unfold goal_reached. intros Hg%bool_decide_eq_true_1 Hk.
  by apply (map_Forall_lookup_1 _ _ _ _ Hg Hk).
Qed.

Lemma NoDup_id_inj ts a b :
  NoDup (id <$> ts) → a ∈ ts → b ∈ ts → id a = id b → a = b.
Proof.
  induction ts as [|t ts IH]; [by intros _ ?%elem_of_nil|].
  rewrite fmap_cons, NoDup_cons. intros [Ht Hts].
  intros [->|Ha]%elem_of_cons [->|Hb]%elem_of_cons Heq; [done| | |by apply IH].
  - exfalso. apply Ht. rewrite Heq. by apply list_elem_of_fmap_2.
  - exfalso. apply Ht. rewrite <- Heq. by apply list_elem_of_fmap_2.
Qed.

(** When ids are distinct and every match joins two different teams of
    the league, a team's matches are the slots carrying its id. *)
Lemma matches_played_slots ts t ms :
  NoDup (id <$> ts) → t ∈ ts →
  Forall (λ p, p.1 ∈ ts ∧ p.2 ∈ ts ∧ id p.1 < id p.2) ms →
  Z.of_nat (matches_played t ms) = slots (id t) ms.
Proof.
  intros Hnd Ht. unfold matches_played.
  induction 1 as [|[a b] ms (Ha & Hb & Hlt) _ IH]; [done|].
  simpl in *. rewrite filter_cons. unfold plays_in at 1. simpl.
  assert (id a = id t ↔ t = a) as Ea.
  { split; [intros; symmetry; by apply (NoDup_id_inj ts)|by intros ->]. }
  assert (id b = id t ↔ t = b) as Eb.
  { split; [intros; symmetry; by apply (NoDup_id_inj ts)|by intros ->]. }
  destruct (decide (id a = id t)) as [Ha'|Ha'];
    destruct (decide (id b = id t)) as [Hb'|Hb']; try lia.
  - rewrite decide_True by (left; by apply Ea). simpl length. lia.
  - rewrite decide_True by (right; by apply Eb). simpl length. lia.
  - rewrite decide_False by (intros [?|?]; [by apply Ha', Ea|by apply Hb', Eb]). lia.
Qed.

(** ** Depth of the recursion *)

(** Past the depth [len(possible_pairs) - pair_idx + 1] the bound on the
    call stack plays no part in the result. *)
Lemma find_fuel_irrelevant pairs n fuel :
  ∀ fuel' ms counts idx lg,
    (length pairs - idx < fuel)%nat → (length pairs - idx < fuel')%nat →
    _find_matches_recursive pairs n fuel ms counts idx lg
    = _find_matches_recursive pairs n fuel' ms counts idx lg.
Proof.
  induction fuel as [|fuel IH]; intros [|fuel'] ms counts idx lg H1 H2; try lia.
  simpl. destruct (goal_reached n counts); [done|].
  destruct (Nat.leb_spec (length pairs) idx) as [Hle|Hlt]; [done|].
  unfold bind, ret.
  destruct (get_index pairs idx lg) as [e|[[t1 t2] lg1]]; [done|].
  destruct (get_item counts (id t1) lg1) as [e|[c1 lg2]]; [done|].
  assert (∀ ms' counts' lg',
    _find_matches_recursive pairs n fuel ms' counts' (idx + 1) lg'
    = _find_matches_recursive pairs n fuel' ms' counts' (idx + 1) lg') as Hrec.
  { intros. apply IH; lia. }
  destruct (c1 <? n).
  - destruct (get_item counts (id t2) lg2) as [e|[c2 lg3]]; [done|].
    destruct (c2 <? n).
    + destruct (incr_item counts (id t1) lg3) as [e|[d1 lg4]]; [done|].
      destruct (incr_item d1 (id t2) lg4) as [e|[d2 lg5]]; [done|].
      rewrite Hrec.
      destruct (_find_matches_recursive pairs n fuel' _ d2 _ lg5) as [e|[[] lg6]];
        [done|done|].
      by rewrite Hrec.
    + by rewrite Hrec.
  - by rewrite Hrec.
Qed.

Lemma get_index_inl {A} (l : list A) i lg e :
  get_index l i lg = inl e → e = IndexError.
Proof. unfold get_index, ret, raise. destruct (l !! i); congruence. Qed.

Lemma get_item_inl d k lg e : get_item d k lg = inl e → e = KeyError.
Proof. unfold get_item, ret, raise. destruct (d !! k); congruence. Qed.

Lemma incr_item_inl d k lg e : incr_item d k lg = inl e → e = KeyError.
Proof.
  unfold incr_item, bind, get_item, ret, raise. destruct (d !! k); congruence.
Qed.

(** With that many frames the search never hits the bound. *)
Lemma find_within_depth pairs n fuel :
  ∀ ms counts idx lg,
    (length pairs - idx < fuel)%nat →
    _find_matches_recursive pairs n fuel ms counts idx lg ≠ inl RecursionDepth.
Proof.
  induction fuel as [|fuel IH]; intros ms counts idx lg H1; [lia|].
  simpl. destruct (goal_reached n counts); [done|].
  destruct (Nat.leb_spec (length pairs) idx) as [Hle|Hlt]; [done|].
  unfold bind, ret.
  destruct (get_index pairs idx lg) as [e|[[t1 t2] lg1]] eqn:Hp.
  { by apply get_index_inl in Hp as ->. }
  destruct (get_item counts (id t1) lg1) as [e|[c1 lg2]] eqn:Hc1.
  { by apply get_item_inl in Hc1 as ->. }
  assert (∀ ms' counts' lg',
    _find_matches_recursive pairs n fuel ms' counts' (idx + 1) lg'
    ≠ inl RecursionDepth) as Hrec.
  { intros. apply IH; lia. }
  assert (∀ l, match _find_matches_recursive pairs n fuel ms counts (idx + 1) l with
                 | inl e => inl e
                 | inr (skipped, l') =>
                     (if skipped : bool
                      then λ l0, inr (true, l0) else λ l0, inr (false, l0)) l'
                 end ≠ (inl RecursionDepth : exn + (bool * League))) as Hskip.
  { intros l. specialize (Hrec ms counts l).
    destruct (_find_matches_recursive _ _ _ _ _ _ l) as [e|[[] l']];
      [congruence|done|done]. }
  destruct (c1 <? n).
  - destruct (get_item counts (id t2) lg2) as [e|[c2 lg3]] eqn:Hc2.
    { by apply get_item_inl in Hc2 as ->. }
    destruct (c2 <? n).
    + destruct (incr_item counts (id t1) lg3) as [e|[d1 lg4]] eqn:Hd1.
      { by apply incr_item_inl in Hd1 as ->. }
      destruct (incr_item d1 (id t2) lg4) as [e|[d2 lg5]] eqn:Hd2.
      { by apply incr_item_inl in Hd2 as ->. }
      specialize (Hrec (ms ++ [(t1, t2)]) d2 lg5).
      destruct (_find_matches_recursive pairs n fuel _ d2 _ lg5) as [e|[[] lg6]];
        [congruence|done|].
      by apply Hskip.
    + by apply Hskip.
  - by apply Hskip.
Qed.

(** ** No exception when the dictionary knows the candidates' ids *)

Lemma incr_item_is_Some d k lg :
  is_Some (d !! k) → incr_item d k lg = inr (<[k := d !!! k + 1]> d, lg).
Proof.
  intros [c Hc]. unfold incr_item, bind, get_item, ret. rewrite Hc.
  by rewrite (lookup_total_correct _ _ _ Hc).
Qed.

Lemma keys_known_insert counts pairs k v :
  keys_known counts pairs → keys_known (<[k := v]> counts) pairs.
Proof.
  unfold keys_known. intros H. eapply Forall_impl; [exact H|].
  intros p [H1 H2]. rewrite !lookup_insert_is_Some'. auto.
Qed.

Lemma find_total pairs n fuel :
  ∀ ms counts idx lg,
    keys_known counts pairs → (length pairs - idx < fuel)%nat →
    ∃ b lg', _find_matches_recursive pairs n fuel ms counts idx lg = inr (b, lg').
Proof.
  induction fuel as [|fuel IH]; intros ms counts idx lg Hkeys Hfuel; [lia|].
  simpl. destruct (goal_reached n counts).
  { unfold bind, set_matches, ret. eauto. }
  destruct (Nat.leb_spec (length pairs) idx) as [Hle|Hlt].
  { unfold ret. eauto. }
  destruct (lookup_lt_is_Some_2 pairs idx Hlt) as [[t1 t2] Hp].
  destruct (Forall_lookup_1 _ _ _ _ Hkeys Hp) as [[c1 Hc1] [c2 Hc2]].
  simpl in Hc1, Hc2.
  assert (∀ l, ∃ b lg',
    (skipped <- _find_matches_recursive pairs n fuel ms counts (idx + 1) ;;
     if skipped : bool then ret true else ret false)%sched l = inr (b, lg')) as Hskip.
  { intros l. unfold bind.
    destruct (IH ms counts (idx + 1)%nat l Hkeys) as (b & l' & ->); [lia|].
    destruct b; unfold ret; eauto. }
  unfold bind at 1. unfold get_index. rewrite Hp. unfold ret at 1.
  unfold bind at 1. unfold get_item at 1. rewrite Hc1. unfold ret at 1.
  unfold bind at 1.
  destruct (c1 <? n).
  - unfold bind at 1. unfold get_item at 1. rewrite Hc2. unfold ret at 1 2.
    destruct (c2 <? n); [|unfold bind at 1, ret at 1; apply Hskip].
    unfold bind at 1. unfold bind at 1.
    rewrite incr_item_is_Some by eauto.
    unfold bind at 1.
    rewrite incr_item_is_Some by (rewrite lookup_insert_is_Some'; eauto).
    edestruct (IH (ms ++ [(t1, t2)])) as (b & l' & ->);
      [by do 2 apply keys_known_insert| |].
    { lia. }
    destruct b; [unfold ret; eauto|apply Hskip].
  - unfold ret at 1. unfold bind at 1, ret at 1. apply Hskip.
Qed.

(** A dictionary whose counts are all 0, and a negative target: the search
    walks to the end of the candidates and returns [False]. *)
Lemma find_negative pairs n fuel :
  ∀ ms counts idx lg,
    n < 0 →
    (∀ k v, counts !! k = Some v → v = 0) → (∃ k, is_Some (counts !! k)) →
    Forall (λ p, is_Some (counts !! id p.1)) pairs →
    (length pairs - idx < fuel)%nat →
    _find_matches_recursive pairs n fuel ms counts idx lg = inr (false, lg).
Proof.
  induction fuel as [|fuel IH]; intros ms counts idx lg Hn Hzero Hne Hkeys Hfuel; [lia|].
  simpl.
  assert (goal_reached n counts = false) as ->.
  { apply bool_decide_eq_false_2. intros Hall. destruct Hne as (k & v & Hk).
    pose proof (Hzero _ _ Hk). pose proof (map_Forall_lookup_1 _ _ _ _ Hall Hk).
    simpl in *. lia. }
  destruct (Nat.leb_spec (length pairs) idx) as [Hle|Hlt]; [done|].
  destruct (lookup_lt_is_Some_2 pairs idx Hlt) as [[t1 t2] Hp].
  destruct (Forall_lookup_1 _ _ _ _ Hkeys Hp) as [c1 Hc1]. simpl in Hc1.
  pose proof (Hzero _ _ Hc1) as ->.
  unfold bind at 1. unfold get_index. rewrite Hp. unfold ret at 1.
  unfold bind at 1. unfold get_item at 1. rewrite Hc1. unfold ret at 1.
  assert ((0 <? n) = false) as -> by lia.
  unfold bind at 1. unfold ret at 1. unfold bind at 1. unfold ret at 1.
  unfold bind. rewrite IH; [done..|lia].
Qed.

(** ** Match Scheduler: the claims *)

Lemma Forall_sublist_of {A} (P : A → Prop) (l k : list A) :
  sublist l k → Forall P k → Forall P l.
Proof.
  intros Hsub Hk. apply Forall_forall. intros x Hx.
  eapply Forall_forall; [exact Hk|]. by eapply elem_of_sublist.
Qed.

Lemma goal_reached_initial_zero ts : goal_reached 0 (initial_match_counts ts) = true.
Proof.
  apply bool_decide_eq_true_2. intros k v.
  rewrite initial_match_counts_lookup. case_decide; congruence.
Qed.

(** The claims are about one call of the scheduler: [shuffle] is what
    [random.shuffle] does to the candidate list in that call, some
    rearrangement of it. *)
Section Scheduler.

Context (shuffle : list (Team * Team) → list (Team * Team)).
Hypothesis shuffle_permutes : ∀ l, shuffle l ≡ₚ l.

Lemma generate_returns n lg b lg' :
  generate_matches_for_league shuffle n lg = inr (b, lg') →
  if b then
    sublist (matches lg') (shuffle (possible_pairs (teams lg)))
    ∧ lg' = mkLeague (league_name lg) (teams lg) (matches lg')
    ∧ goal_reached n (foldl bump (initial_match_counts (teams lg)) (matches lg')) = true
  else lg' = lg.
Proof.
  unfold generate_matches_for_league. intros H%find_returns.
  destruct b; [|done]. destruct H as (extra & Hsub & -> & Hg). done.
Qed.

Lemma shuffled_candidates ts (P : Team * Team → Prop) :
  Forall P (possible_pairs ts) → Forall P (shuffle (possible_pairs ts)).
Proof. intros H. by rewrite shuffle_permutes. Qed.

Lemma keys_known_initial ts :
  keys_known (initial_match_counts ts) (shuffle (possible_pairs ts)).
Proof.
  apply shuffled_candidates.
  apply Forall_forall. intros p (H1 & H2 & _)%elem_of_possible_pairs.
  by rewrite !initial_match_counts_team.
Qed.

(** C1 (amended). For every league whose teams have pairwise distinct ids
    and every non-negative [num_matches_per_team]: if
    [generate_matches_for_league] returns [True], every team of the league
    appears in exactly [num_matches_per_team] of the matches stored in
    [league.matches]. The goal test comes first in a call: when it holds the
    call stores the matches it was given and returns [True], wherever
    [pair_idx] stands in the candidate list. *)
Theorem scheduler_exact_degree n lg lg' :
  NoDup (id <$> teams lg) →
  0 ≤ n →
  generate_matches_for_league shuffle n lg = inr (true, lg') →
  (∀ t, t ∈ teams lg → Z.of_nat (matches_played t (matches lg')) = n)
  ∧ (∀ pairs fuel ms counts idx l,
       goal_reached n counts = true →
       _find_matches_recursive pairs n (S fuel) ms counts idx l
       = inr (true, mkLeague (league_name l) (teams l) ms)).
Proof.
  intros Hnd _ Hgen. split.
  - apply generate_returns in Hgen as (Hsub & _ & Hgoal).
    intros t Ht.
    assert (Forall (λ p, p.1 ∈ teams lg ∧ p.2 ∈ teams lg ∧ id p.1 < id p.2)
              (matches lg')) as Hms.
    { eapply Forall_sublist_of; [exact Hsub|]. apply shuffled_candidates.
      pose proof (possible_pairs_ordered _ Hnd) as Hord.
      apply Forall_forall. intros p Hp.
      destruct (elem_of_possible_pairs _ _ Hp) as (? & ? & _).
      split_and!; try done. eapply Forall_forall in Hord; eauto. }
    rewrite (matches_played_slots (teams lg)) by done.
    pose proof (foldl_bump_lookup_total (matches lg')
                  (initial_match_counts (teams lg)) (id t)) as Hcount.
    pose proof (initial_match_counts_team _ _ Ht) as Hinit.
    rewrite (lookup_total_correct _ _ _ Hinit) in Hcount.
    destruct (foldl_bump_is_Some (matches lg') (initial_match_counts (teams lg)) (id t))
      as [v Hv]; [by rewrite Hinit|].
    pose proof (goal_reached_lookup _ _ _ _ Hgoal Hv) as ->.
    rewrite (lookup_total_correct _ _ _ Hv) in Hcount. lia.
  - intros pairs fuel ms counts idx l Hg. simpl. by rewrite Hg.
Qed.

(** C2. Every match of a successful run of [generate_matches_for_league]
    joins two teams of different regions: the candidate list holds only
    such pairs, and the stored matches are a selection from it. *)
Theorem matches_cross_region n lg lg' :
  generate_matches_for_league shuffle n lg = inr (true, lg') →
  Forall (λ p, region p.1 ≠ region p.2) (shuffle (possible_pairs (teams lg)))
  ∧ sublist (matches lg') (shuffle (possible_pairs (teams lg)))
  ∧ ∀ t1 t2, (t1, t2) ∈ matches lg' → region t1 ≠ region t2.
Proof.
  intros Hgen.
  apply generate_returns in Hgen as (Hsub & _ & _).
  assert (Forall (λ p, region p.1 ≠ region p.2) (shuffle (possible_pairs (teams lg))))
    as Hcross.
  { apply shuffled_candidates. apply Forall_forall.
    intros p Hp. by apply elem_of_possible_pairs in Hp as (_ & _ & ?). }
  split_and!; [done|done|].
  intros t1 t2 Hin.
  pose proof (Forall_sublist_of _ _ _ Hsub Hcross) as Hms.
  eapply Forall_forall in Hms; [|exact Hin]. done.
Qed.

(** C3. For a league whose teams have pairwise distinct ids, the matches
    of a successful run hold no unordered pair twice: the candidate list has
    no duplicate and lists each pair with the smaller id first, and the
    stored matches are picked from it in order, each position at most
    once. *)
Theorem no_pair_scheduled_twice n lg lg' :
  NoDup (id <$> teams lg) →
  generate_matches_for_league shuffle n lg = inr (true, lg') →
  NoDup (possible_pairs (teams lg))
  ∧ Forall (λ p, id p.1 < id p.2) (possible_pairs (teams lg))
  ∧ sublist (matches lg') (shuffle (possible_pairs (teams lg)))
  ∧ ∀ i j p q, i ≠ j → matches lg' !! i = Some p → matches lg' !! j = Some q →
               ¬ same_pairing p q.
Proof.
  intros Hnd Hgen.
  apply generate_returns in Hgen as (Hsub & _ & _).
  pose proof (possible_pairs_NoDup _ Hnd) as Hnodup.
  pose proof (possible_pairs_ordered _ Hnd) as Hord.
  split_and!; try done.
  assert (NoDup (matches lg')) as Hnd'.
  { eapply sublist_NoDup; [|exact Hsub]. by rewrite shuffle_permutes. }
  assert (Forall (λ p, id p.1 < id p.2) (matches lg')) as Hord'.
  { eapply Forall_sublist_of; [exact Hsub|]. by apply shuffled_candidates. }
  intros i j p q Hij Hp Hq [->|[E1 E2]].
  - apply Hij. by eapply NoDup_lookup.
  - pose proof (Forall_lookup_1 _ _ _ _ Hord' Hp).
    pose proof (Forall_lookup_1 _ _ _ _ Hord' Hq).
    simpl in *. rewrite E1, E2 in *. lia.
Qed.

(** C5. When [generate_matches_for_league] returns [False], the league is
    as it was before the call, its [matches] field included. *)
Theorem failure_keeps_matches n lg lg' :
  generate_matches_for_league shuffle n lg = inr (false, lg') →
  matches lg' = matches lg ∧ lg' = lg.
Proof. intros Hgen. apply generate_returns in Hgen as ->. done. Qed.

(** C6. With [num_matches_per_team = 0] the scheduler returns [True] and
    stores the empty match list, whatever the league. The search does so in
    its first call, for any list of candidates at all: none is looked at. *)
Theorem zero_target_succeeds_at_once lg :
  generate_matches_for_league shuffle 0 lg
  = inr (true, mkLeague (league_name lg) (teams lg) [])
  ∧ ∀ pairs,
      _find_matches_recursive pairs 0 1 [] (initial_match_counts (teams lg)) 0 lg
      = inr (true, mkLeague (league_name lg) (teams lg) []).
Proof.
  split; [unfold generate_matches_for_league|intros pairs];
    simpl; by rewrite goal_reached_initial_zero.
Qed.

(** C9. The search terminates. A call at [pair_idx] never needs more than
    [len(possible_pairs) - pair_idx + 1] frames, since every recursive call
    is at [pair_idx + 1]: with that many the depth bound is never hit, and
    any larger bound gives the same result. The scheduler therefore always
    returns, and the candidate list it searches holds at most [C(n, 2)]
    pairs for a league of [n] teams. *)
Theorem search_terminates n lg :
  (∃ b lg', generate_matches_for_league shuffle n lg = inr (b, lg'))
  ∧ (∀ pairs fuel ms counts idx l,
       (length pairs - idx < fuel)%nat →
       _find_matches_recursive pairs n fuel ms counts idx l ≠ inl RecursionDepth
       ∧ _find_matches_recursive pairs n fuel ms counts idx l
         = _find_matches_recursive pairs n (S (length pairs - idx)) ms counts idx l)
  ∧ (length (shuffle (possible_pairs (teams lg)))
     ≤ length (teams lg) * (length (teams lg) - 1) / 2)%nat.
Proof.
  split_and!.
  - apply find_total; [by apply keys_known_initial|lia].
  - intros pairs fuel ms counts idx l Hfuel. split.
    + by apply find_within_depth.
    + apply find_fuel_irrelevant; lia.
  - rewrite shuffle_permutes. apply Nat.div_le_lower_bound; [lia|].
    apply length_possible_pairs.
Qed.

(** C10. For a league with at least one team and a negative
    [num_matches_per_team], the scheduler returns [False] and the league,
    its [matches] included, is as before. *)
Theorem negative_target_fails n lg :
  teams lg ≠ [] →
  n < 0 →
  generate_matches_for_league shuffle n lg = inr (false, lg).
Proof.
  intros Hne Hn. unfold generate_matches_for_league.
  apply find_negative; [done| | | |lia].
  - intros k v. rewrite initial_match_counts_lookup. case_decide; congruence.
  - destruct (teams lg) as [|t ts] eqn:E; [done|].
    exists (id t). rewrite initial_match_counts_team; [done|constructor].
  - pose proof (keys_known_initial (teams lg)) as Hk.
    eapply Forall_impl; [exact Hk|]. by intros p [? _].
Qed.

End Scheduler.

(** *** The claims on the sample league *)

Example generate_lg4_reverse :
  generate_matches_for_league reverse 2 lg4 = inr (true, lg4_scheduled).
Proof. vm_compute. reflexivity. Qed.

Lemma scheduler_exact_degree_witness :
  Z.of_nat (matches_played tC (matches lg4_scheduled)) = 2.
Proof.
  apply (scheduler_exact_degree reverse reverse_Permutation 2 lg4 lg4_scheduled).
  - apply (bool_decide_unpack _). vm_compute. exact I.
  - lia.
  - vm_compute. reflexivity.
  - apply (bool_decide_unpack _). vm_compute. exact I.
Defined.

(** C1 as stated, for every league, fails: two teams that share an id share
    one counter, so a single match between them fills a target of 2. *)
Lemma exact_degree_fails_on_shared_id :
  ¬ (∀ shuffle n lg lg',
       (∀ l, shuffle l ≡ₚ l) →
       0 ≤ n →
       generate_matches_for_league shuffle n lg = inr (true, lg') →
       ∀ t, t ∈ teams lg → Z.of_nat (matches_played t (matches lg')) = n).
Proof.
  intros H.
  specialize (H (λ l, l) 2 twins (mkLeague "L" [twinX; twinY] [(twinX, twinY)])).
  specialize (H (λ l, reflexivity l)).
  specialize (H ltac:(lia) ltac:(vm_compute; reflexivity) twinX).
  specialize (H ltac:(apply (bool_decide_unpack _); vm_compute; exact I)).
  vm_compute in H. discriminate H.
Qed.

Lemma matches_cross_region_witness : region tB ≠ region tA2.
Proof.
  apply (matches_cross_region reverse reverse_Permutation 2 lg4 lg4_scheduled).
  - vm_compute. reflexivity.
  - apply (bool_decide_unpack _). vm_compute. exact I.
Defined.

Lemma no_pair_scheduled_twice_witness : ¬ same_pairing (tC, tA2) (tA, tB).
Proof.
  refine (proj2 (proj2 (proj2
    (no_pair_scheduled_twice reverse reverse_Permutation 2 lg4 lg4_scheduled _ _)))
    0%nat 3%nat _ _ _ _ _).
  - apply (bool_decide_unpack _). vm_compute. exact I.
  - vm_compute. reflexivity.
  - lia.
  - reflexivity.
  - reflexivity.
Defined.

Lemma failure_keeps_matches_witness :
  matches lg4_played = [(tA, tB)] ∧ lg4_played = lg4_played.
Proof.
  apply (failure_keeps_matches reverse 3 lg4_played lg4_played).
  vm_compute. reflexivity.
Defined.

Lemma search_terminates_witness :
  (length (reverse (possible_pairs (teams lg4))) ≤ 4 * (4 - 1) / 2)%nat.
Proof.
  apply (search_terminates reverse reverse_Permutation 2 lg4).
Defined.

Lemma negative_target_fails_witness :
  generate_matches_for_league reverse (-1) lg4_played = inr (false, lg4_played).
Proof.
  apply (negative_target_fails reverse reverse_Permutation (-1) lg4_played).
  - discriminate.
  - lia.
Defined.

(** ** League Partitioner: the pieces *)

Lemma insert_by_key_perm {A} (key : A → nat) x l : insert_by_key key x l ≡ₚ x :: l.
Proof.
  induction l as [|y l IH]; [done|]. simpl.
  destruct (key x <=? key y)%nat; [done|]. rewrite IH. apply Permutation_swap.
Qed.

Lemma sorted_perm {A} (l : list A) key : sorted l key ≡ₚ l.
Proof.
  unfold sorted. induction l as [|x l IH]; [done|]. simpl.
  by rewrite insert_by_key_perm, IH.
Qed.

(** The first element of [sorted(l, key=key)] has the least key of [l]. *)
Lemma sorted_first_least {A} (l : list A) key x :
  sorted l key !! 0%nat = Some x → ∀ y, y ∈ l → (key x ≤ key y)%nat.
Proof.
  unfold sorted. revert x. induction l as [|a l IH]; intros x Hx y Hy.
  { by apply elem_of_nil in Hy. }
  simpl in Hx. destruct (foldr (insert_by_key key) [] l) as [|b r] eqn:E.
  - assert (l = []) as ->.
    { apply Permutation_nil_r. rewrite <- (sorted_perm l key). unfold sorted. by rewrite E. }
    simpl in Hx. injection Hx as <-. apply list_elem_of_singleton in Hy as ->. done.
  - simpl in Hx. destruct (Nat.leb_spec (key a) (key b)) as [Hle|Hlt];
      simpl in Hx; injection Hx as <-.
    + apply elem_of_cons in Hy as [->|Hy]; [done|].
      specialize (IH b eq_refl y Hy). lia.
    + apply elem_of_cons in Hy as [->|Hy]; [lia|].
      exact (IH _ eq_refl y Hy).
Qed.

Lemma insert_by_key_sorted {A} (key : A → nat) x l :
  Sorted (λ a b, key a ≤ key b)%nat l →
  Sorted (λ a b, key a ≤ key b)%nat (insert_by_key key x l).
Proof.
  induction 1 as [|y l Hl IH Hhd]; simpl; [by repeat constructor|].
  destruct (Nat.leb_spec (key x) (key y)) as [Hle|Hlt].
  - constructor; [by constructor|by constructor].
  - constructor; [done|]. destruct Hhd as [|z l Hyz]; simpl.
    + constructor. lia.
    + destruct (key x <=? key z)%nat; constructor; [lia|done].
Qed.

(** [sorted] does sort by key. *)
Lemma sorted_is_sorted {A} (l : list A) key :
  Sorted (λ a b, key a ≤ key b)%nat (sorted l key).
Proof.
  unfold sorted. induction l as [|x l IH]; simpl; [constructor|].
  by apply insert_by_key_sorted.
Qed.

(** The leagues collected as available are those with room left, each
    under its own position. *)
Lemma available_leagues_spec league_sizes leagues :
  ∀ i found, available_leagues league_sizes i leagues = inr found →
  ∀ j lg, (j, lg) ∈ found ↔
    ∃ j' size, j = (i + j')%nat ∧ leagues !! j' = Some lg
      ∧ league_sizes !! j = Some size ∧ Z.of_nat (length (teams lg)) < size.
Proof.
  induction leagues as [|league rest IH]; intros i found; simpl.
  { intros [= <-] j lg. split; [by intros ?%elem_of_nil|].
    by intros (j' & size & _ & ? & _). }
  destruct (league_sizes !! i) as [size|] eqn:Hsize; [|done].
  destruct (available_leagues league_sizes (S i) rest) as [e|found'] eqn:Hrest; [done|].
  intros [= <-] j lg. specialize (IH _ _ Hrest j lg).
  assert ((j, lg) ∈ (if Z.of_nat (length (teams league)) <? size
                     then (i, league) :: found' else found')
          ↔ (j = i ∧ lg = league ∧ Z.of_nat (length (teams league)) < size)
            ∨ (j, lg) ∈ found') as ->.
  { destruct (Z.ltb_spec (Z.of_nat (length (teams league))) size).
    - rewrite elem_of_cons. split; [intros [[= -> ->]|?]|intros [(-> & -> & _)|?]]; auto.
    - split; [auto|]. intros [(_ & _ & ?)|?]; [lia|done]. }
  rewrite IH. split.
  - intros [(-> & -> & Hlt)|(j' & sz & -> & Hl & Hs & Hlt)].
    + exists 0%nat, size. rewrite Nat.add_0_r. done.
    + exists (S j'), sz. rewrite <- Nat.add_succ_comm. done.
  - intros ([|j'] & sz & -> & Hl & Hs & Hlt).
    + left. rewrite Nat.add_0_r in *. simpl in Hl. injection Hl as <-.
      split_and!; try done. congruence.
    + right. exists j', sz. rewrite <- Nat.add_succ_comm in *. done.
Qed.

(** Reading [league_sizes[i]] does not fail when there is a size per league. *)
Lemma available_leagues_total league_sizes leagues :
  ∀ i, (i + length leagues ≤ length league_sizes)%nat →
  ∃ found, available_leagues league_sizes i leagues = inr found.
Proof.
  induction leagues as [|league rest IH]; intros i Hlen; simpl in *; [eauto|].
  destruct (lookup_lt_is_Some_2 league_sizes i) as [size ->]; [lia|].
  destruct (IH (S i)) as [found ->]; [lia|]. eauto.
Qed.

Lemma random_choice_inr {A} draw (l : list A) x :
  random_choice draw l = inr x → x ∈ l.
Proof.
  unfold random_choice. destruct (l !! _) eqn:E; [|done].
  intros [= <-]. by eapply list_elem_of_lookup_2.
Qed.

Lemma random_choice_total {A} draw (l : list A) :
  l ≠ [] → ∃ x, random_choice draw l = inr x.
Proof.
  intros Hne. unfold random_choice.
  destruct (lookup_lt_is_Some_2 l (draw `mod` length l)%nat) as [x ->]; [|eauto].
  apply Nat.mod_upper_bound. by destruct l.
Qed.

(** The choice comes from the available leagues and has the least number
    of teams from the region of [team] among them. *)
Lemma choose_league_Some draw league_sizes leagues team c lg :
  choose_league draw league_sizes leagues team = inr (Some (c, lg)) →
  ∃ found, available_leagues league_sizes 0 leagues = inr found
    ∧ (c, lg) ∈ found
    ∧ ∀ other, other ∈ found → (region_count team lg ≤ region_count team other.2)%nat.
Proof.
  unfold choose_league.
  destruct (available_leagues league_sizes 0 leagues) as [e|found]; [done|].
  destruct found as [|a found]; [done|].
  set (key := λ lg0 : nat * League, region_count team lg0.2).
  destruct (sorted (a :: found) key !! 0%nat) as [first|] eqn:Hfirst; [|done].
  destruct (random_choice draw _) as [e|chosen] eqn:Hchoice; [done|].
  intros [= ->]. exists (a :: found). split; [done|].
  apply random_choice_inr, list_elem_of_filter in Hchoice as [Hkey Hin].
  rewrite sorted_perm in Hin. split; [done|].
  intros other Hother.
  pose proof (sorted_first_least _ _ _ Hfirst other Hother) as Hleast.
  unfold key in Hkey, Hleast. simpl in Hkey. lia.
Qed.

Lemma choose_league_None draw league_sizes leagues team :
  choose_league draw league_sizes leagues team = inr None →
  available_leagues league_sizes 0 leagues = inr [].
Proof.
  unfold choose_league.
  destruct (available_leagues league_sizes 0 leagues) as [e|found]; [done|].
  destruct found as [|a found]; [done|].
  destruct (sorted (a :: found) _ !! 0%nat) as [first|]; [|done].
  by destruct (random_choice draw _).
Qed.

Lemma choose_league_total draw league_sizes leagues team :
  (length leagues ≤ length league_sizes)%nat →
  ∃ r, choose_league draw league_sizes leagues team = inr r.
Proof.
  intros Hlen. unfold choose_league.
  destruct (available_leagues_total league_sizes leagues 0) as [found ->]; [lia|].
  destruct found as [|a found]; [eauto|].
  set (key := λ lg0 : nat * League, region_count team lg0.2).
  destruct (sorted (a :: found) key) as [|first rest] eqn:Hsorted.
  { pose proof (sorted_perm (a :: found) key) as Hperm. rewrite Hsorted in Hperm.
    by apply Permutation_nil_cons in Hperm. }
  simpl lookup. cbv beta iota.
  destruct (random_choice_total draw
              (filter (λ lg0 : nat * League,
                         region_count team lg0.2 = region_count team first.2)
                      (first :: rest))) as [x ->];
    [|eauto].
  rewrite filter_cons_True by done. done.
Qed.

(** ** League Partitioner: the loop *)

Lemma append_team_length leagues i lg team :
  length (append_team leagues i lg team) = length leagues.
Proof. unfold append_team. apply length_insert. Qed.

Lemma append_team_placed leagues i lg team :
  leagues !! i = Some lg →
  placed (append_team leagues i lg team) ≡ₚ team :: placed leagues.
Proof.
  intros Hi. unfold placed, append_team.
  rewrite insert_take_drop by (by eapply lookup_lt_Some).
  rewrite <- (take_drop_middle leagues i lg Hi) at 3.
  rewrite !fmap_app, !fmap_cons, !concat_app, !concat_cons. simpl.
  rewrite <- !app_assoc. simpl.
  rewrite (Permutation_middle (concat (teams <$> take i leagues))).
  apply Permutation_app_head.
  rewrite <- Permutation_middle. done.
Qed.

Lemma placed_fresh (label : nat → string) n : ∀ s,
  placed ((λ i, mkLeague (label i) [] []) <$> seq s n) = [].
Proof. induction n as [|n IH]; intros s; [done|]. unfold placed in *. simpl. apply IH. Qed.

Lemma length_placed_cons lg leagues :
  length (placed (lg :: leagues)) = (length (teams lg) + length (placed leagues))%nat.
Proof. unfold placed. simpl. by rewrite length_app. Qed.

(** When every league is full the teams placed are at least [sum(league_sizes)]. *)
Lemma full_total leagues league_sizes :
  Forall2 (λ lg size, size ≤ Z.of_nat (length (teams lg))) leagues league_sizes →
  total_size league_sizes ≤ Z.of_nat (length (placed leagues)).
Proof.
  induction 1 as [|lg size leagues sizes Hfull _ IH]; [done|].
  rewrite length_placed_cons. simpl. lia.
Qed.

Lemma room_total leagues league_sizes :
  Forall2 (λ lg size, Z.of_nat (length (teams lg)) ≤ size) leagues league_sizes →
  Z.of_nat (length (placed leagues)) ≤ total_size league_sizes.
Proof.
  induction 1 as [|lg size leagues sizes Hroom _ IH]; [done|].
  rewrite length_placed_cons. simpl. lia.
Qed.

(** No league above its size and as many teams placed as the sizes add up
    to: every league is exactly at its size. *)
Lemma room_exact leagues league_sizes :
  Forall2 (λ lg size, Z.of_nat (length (teams lg)) ≤ size) leagues league_sizes →
  Z.of_nat (length (placed leagues)) = total_size league_sizes →
  Forall2 (λ lg size, Z.of_nat (length (teams lg)) = size) leagues league_sizes.
Proof.
  induction 1 as [|lg size leagues sizes Hroom Hrest IH]; [constructor|].
  rewrite length_placed_cons. simpl. intros Hsum.
  pose proof (room_total _ _ Hrest).
  constructor; [lia|]. apply IH. lia.
Qed.

(** What a choice tells about the state of the leagues. *)
Lemma choose_league_position draw league_sizes leagues team c lg :
  choose_league draw league_sizes leagues team = inr (Some (c, lg)) →
  leagues !! c = Some lg
  ∧ (∃ size, league_sizes !! c = Some size ∧ Z.of_nat (length (teams lg)) < size)
  ∧ ∀ j other size,
      leagues !! j = Some other → league_sizes !! j = Some size →
      Z.of_nat (length (teams other)) < size →
      (region_count team lg ≤ region_count team other)%nat.
Proof.
  intros (found & Hav & Hin & Hleast)%choose_league_Some.
  pose proof (available_leagues_spec _ _ _ _ Hav) as Hspec.
  apply Hspec in Hin as (j' & size & -> & Hlg & Hsize & Hlt). simpl in *.
  split_and!; [done|by eauto|].
  intros j other sz Hother Hsz Hroom.
  apply (Hleast (j, other)). apply Hspec. exists j, sz. done.
Qed.

Lemma available_nil_full league_sizes leagues :
  length leagues = length league_sizes →
  available_leagues league_sizes 0 leagues = inr [] →
  Forall2 (λ lg size, size ≤ Z.of_nat (length (teams lg))) leagues league_sizes.
Proof.
  intros Hlen Hav. apply Forall2_same_length_lookup_2; [done|].
  intros i lg size Hlg Hsize.
  destruct (Z.le_gt_cases size (Z.of_nat (length (teams lg)))) as [|Hlt]; [done|].
  exfalso. apply (not_elem_of_nil (i, lg)).
  apply (available_leagues_spec _ _ _ _ Hav). exists i, size. done.
Qed.

Lemma append_team_room league_sizes leagues c lg size team :
  leagues !! c = Some lg → league_sizes !! c = Some size →
  Z.of_nat (length (teams lg)) < size →
  Forall2 (λ lg size, Z.of_nat (length (teams lg)) ≤ size) leagues league_sizes →
  Forall2 (λ lg size, Z.of_nat (length (teams lg)) ≤ size)
    (append_team leagues c lg team) league_sizes.
Proof.
  intros Hlg Hsize Hlt Hroom. unfold append_team.
  rewrite <- (list_insert_id league_sizes c size Hsize).
  apply Forall2_insert; [done|]. simpl. rewrite length_app. simpl. lia.
Qed.

(** A pass of the loop that places every team of [ts]. *)
Lemma place_teams_Some draws league_sizes ts :
  ∀ k leagues ls,
    place_teams draws league_sizes k ts leagues = inr (Some ls) →
    length ls = length leagues
    ∧ placed ls ≡ₚ ts ++ placed leagues
    ∧ (Forall2 (λ lg size, Z.of_nat (length (teams lg)) ≤ size) leagues league_sizes →
       Forall2 (λ lg size, Z.of_nat (length (teams lg)) ≤ size) ls league_sizes).
Proof.
  induction ts as [|team rest IH]; intros k leagues ls; simpl.
  { by intros [= <-]. }
  destruct (choose_league _ _ _ _) as [e|[[c lg]|]] eqn:Hchoice; [done| |done].
  apply choose_league_position in Hchoice as (Hlg & (size & Hsize & Hlt) & _).
  intros (Hlen & Hperm & Hroom)%IH.
  rewrite append_team_length in Hlen. split_and!; [done| |].
  - rewrite Hperm, append_team_placed by done. symmetry. apply Permutation_middle.
  - intros H. by eapply Hroom, append_team_room.
Qed.

(** A pass of the loop that returns [None]: some team was reached with
    every team before it placed and no league available. *)
Lemma place_teams_None draws league_sizes ts :
  ∀ k leagues,
    place_teams draws league_sizes k ts leagues = inr None →
    ∃ pre team post ls,
      ts = pre ++ team :: post
      ∧ place_teams draws league_sizes k pre leagues = inr (Some ls)
      ∧ available_leagues league_sizes 0 ls = inr [].
Proof.
  induction ts as [|team rest IH]; intros k leagues; simpl; [done|].
  destruct (choose_league _ _ _ _) as [e|[[c lg]|]] eqn:Hchoice; [done| |].
  - intros (pre & t & post & ls & -> & Hpre & Hav)%IH.
    exists (team :: pre), t, post, ls. simpl. rewrite Hchoice. done.
  - intros _. exists [], team, rest, leagues. split_and!; [done|done|].
    by eapply choose_league_None.
Qed.

(** The loop raises nothing when there is a size per league. *)
Lemma place_teams_total draws league_sizes ts :
  ∀ k leagues,
    length leagues = length league_sizes →
    ∃ r, place_teams draws league_sizes k ts leagues = inr r.
Proof.
  induction ts as [|team rest IH]; intros k leagues Hlen; simpl; [eauto|].
  destruct (choose_league_total (draws k) league_sizes leagues team) as [[[c lg]|] ->];
    [lia| |eauto].
  apply IH. by rewrite append_team_length.
Qed.

Lemma fresh_leagues_length league_sizes :
  length (fresh_leagues league_sizes) = length league_sizes.
Proof. unfold fresh_leagues. by rewrite length_fmap, length_seq. Qed.

Lemma fresh_leagues_room league_sizes :
  Forall (λ size, 0 ≤ size) league_sizes →
  Forall2 (λ lg size, Z.of_nat (length (teams lg)) ≤ size)
    (fresh_leagues league_sizes) league_sizes.
Proof.
  intros Hpos. apply Forall2_same_length_lookup_2; [apply fresh_leagues_length|].
  intros i lg size Hlg Hsize. unfold fresh_leagues in Hlg.
  apply list_lookup_fmap_Some in Hlg as (j & -> & _). simpl.
  eapply Forall_lookup_1 in Hpos; [|exact Hsize]. done.
Qed.

Lemma elem_of_placed leagues t :
  t ∈ placed leagues ↔ ∃ i lg, leagues !! i = Some lg ∧ t ∈ teams lg.
Proof.
  unfold placed. induction leagues as [|lg0 leagues IH]; simpl.
  { split; [by intros ?%elem_of_nil|by intros (i & lg & ? & _)]. }
  rewrite elem_of_app, IH. split.
  - intros [Hin|(i & lg & Hi & Hin)]; [by exists 0%nat, lg0|by exists (S i), lg].
  - intros ([|i] & lg & Hi & Hin); simpl in Hi; [left; congruence|right; eauto].
Qed.

(** When no team is placed twice, a team is in one league only. *)
Lemma placed_NoDup_unique leagues t :
  NoDup (placed leagues) →
  ∀ i j lg lg', leagues !! i = Some lg → leagues !! j = Some lg' →
                t ∈ teams lg → t ∈ teams lg' → i = j.
Proof.
  induction leagues as [|lg0 leagues IH]; [done|].
  unfold placed in *. simpl. rewrite NoDup_app. intros (_ & Hdisj & Hnd).
  fold (placed leagues) in Hdisj.
  intros [|i] [|j] lg lg' Hi Hj Hin Hin'; simpl in *; simplify_eq; try done.
  - exfalso. apply (Hdisj t Hin). apply elem_of_placed. eauto.
  - exfalso. apply (Hdisj t Hin'). apply elem_of_placed. eauto.
  - f_equal. by eapply IH.
Qed.

(** ** League Partitioner: the claims *)

(** The claims are about one call of the partitioner: [sample] is what
    [random.sample(teams, len(teams))] returns in that call, some
    rearrangement of the teams, and [draws] are the draws of its calls of
    [random.choice]. *)
Section Partitioner.

Context (sample : list Team → list Team) (draws : nat → nat).
Hypothesis sample_permutes : ∀ l, sample l ≡ₚ l.

(** C4 (amended). For every team list and every list of non-negative
    league sizes that add up to the number of teams: if
    [divide_into_leagues] returns leagues, their teams taken together are
    the input teams, each entry of the input placed once, so that a team
    list without repetition has every team in exactly one league; and the
    i-th league has as many teams as the i-th size says. *)
Theorem partition_places_every_team ts league_sizes ls :
  Forall (λ size, 0 ≤ size) league_sizes →
  total_size league_sizes = Z.of_nat (length ts) →
  divide_into_leagues sample draws ts league_sizes = inr (Some ls) →
  placed ls ≡ₚ ts
  ∧ (NoDup ts → ∀ t, t ∈ ts →
       ∃ i, (∃ lg, ls !! i = Some lg ∧ t ∈ teams lg)
            ∧ ∀ j lg, ls !! j = Some lg → t ∈ teams lg → j = i)
  ∧ Forall2 (λ lg size, Z.of_nat (length (teams lg)) = size) ls league_sizes.
Proof.
  intros Hpos Hsum Hdiv. unfold divide_into_leagues in Hdiv.
  apply place_teams_Some in Hdiv as (Hlen & Hperm & Hroom).
  unfold fresh_leagues in Hperm at 1.
  rewrite placed_fresh, app_nil_r, sample_permutes in Hperm.
  split_and!; [done| |].
  - intros Hnd t Ht.
    assert (t ∈ placed ls) as (i & lg & Hi & Hin)%elem_of_placed by by rewrite Hperm.
    exists i. split; [by eauto|].
    intros j lg' Hj Hin'. symmetry.
    eapply (placed_NoDup_unique ls t); eauto. by rewrite Hperm.
  - apply room_exact; [by apply Hroom, fresh_leagues_room|].
    by rewrite Hperm.
Qed.

(** C7. When the loop places a team, the league that receives it is one
    with room left, and among the leagues with room left none has fewer
    teams from the region of that team. *)
Theorem chosen_league_least_crowded league_sizes k team rest leagues c lg :
  choose_league (draws k) league_sizes leagues team = inr (Some (c, lg)) →
  leagues !! c = Some lg
  ∧ (∃ size, league_sizes !! c = Some size ∧ Z.of_nat (length (teams lg)) < size)
  ∧ (∀ j other size,
       leagues !! j = Some other → league_sizes !! j = Some size →
       Z.of_nat (length (teams other)) < size →
       (region_count team lg ≤ region_count team other)%nat)
  ∧ place_teams draws league_sizes k (team :: rest) leagues
    = place_teams draws league_sizes (S k) rest (append_team leagues c lg team).
Proof.
  intros Hchoice.
  destruct (choose_league_position _ _ _ _ _ _ Hchoice) as (H1 & H2 & H3).
  split_and!; try done. simpl. by rewrite Hchoice.
Qed.

(** Where [divide_into_leagues] returns [None]: at a team of the shuffled
    list, with the teams before it placed and every league at its size or
    above. *)
Lemma divide_None_full ts league_sizes :
  divide_into_leagues sample draws ts league_sizes = inr None →
  ∃ pre team post ls,
    sample ts = pre ++ team :: post
    ∧ place_teams draws league_sizes 0 pre (fresh_leagues league_sizes)
      = inr (Some ls)
    ∧ Forall2 (λ lg size, size ≤ Z.of_nat (length (teams lg))) ls league_sizes.
Proof.
  unfold divide_into_leagues.
  intros (pre & team & post & ls & Hsplit & Hpre & Hav)%place_teams_None.
  exists pre, team, post, ls. split_and!; [done|done|].
  apply available_nil_full; [|done].
  apply place_teams_Some in Hpre as (-> & _). apply fresh_leagues_length.
Qed.

(** C8. [divide_into_leagues] returns [None] only at a team that is still
    to be placed when no league has room left; and when the sizes add up to
    the number of teams it returns leagues. *)
Theorem partition_fails_only_when_full ts league_sizes :
  (divide_into_leagues sample draws ts league_sizes = inr None →
     ∃ pre team post ls,
       sample ts = pre ++ team :: post
       ∧ place_teams draws league_sizes 0 pre (fresh_leagues league_sizes)
         = inr (Some ls)
       ∧ Forall2 (λ lg size, size ≤ Z.of_nat (length (teams lg))) ls league_sizes)
  ∧ (total_size league_sizes = Z.of_nat (length ts) →
     ∃ ls, divide_into_leagues sample draws ts league_sizes = inr (Some ls)).
Proof.
  pose proof (divide_None_full ts league_sizes) as Hfail.
  split; [done|]. intros Hsum.
  destruct (place_teams_total draws league_sizes (sample ts) 0
              (fresh_leagues league_sizes)) as [[ls|] Hrun];
    [apply fresh_leagues_length|by eauto|].
  exfalso. destruct (Hfail Hrun) as (pre & team & post & ls & Hsplit & Hpre & Hfull).
  apply full_total in Hfull.
  apply place_teams_Some in Hpre as (_ & Hperm & _).
  unfold fresh_leagues in Hperm. rewrite placed_fresh, app_nil_r in Hperm.
  rewrite Hperm in Hfull.
  assert (length ts = length (pre ++ team :: post)) as Hlen
    by by rewrite <- Hsplit, sample_permutes.
  rewrite length_app in Hlen. simpl in Hlen. lia.
Qed.

End Partitioner.

(** *** The claims on sample teams *)

Lemma partition_places_every_team_witness :
  Forall2 (λ lg size, Z.of_nat (length (teams lg)) = size)
    [mkLeague "リーグ1" [tA; tC; tB2] []; mkLeague "リーグ2" [tB; tA2] []] [3; 2].
Proof.
  apply (partition_places_every_team (λ l, l) (λ k, k) (λ l, reflexivity l)
           [tA; tB; tC; tA2; tB2] [3; 2]).
  - repeat constructor; lia.
  - reflexivity.
  - vm_compute. reflexivity.
Defined.

(** C4 as stated fails: a negative size is never reached, while the sizes
    can still add up to the number of teams. With sizes [3, -1] and two
    teams the call returns leagues of 2 and 0 teams. *)
Lemma partition_sizes_fail_on_negative_size :
  ¬ (∀ sample draws ts league_sizes ls,
       (∀ l, sample l ≡ₚ l) →
       total_size league_sizes = Z.of_nat (length ts) →
       divide_into_leagues sample draws ts league_sizes = inr (Some ls) →
       placed ls ≡ₚ ts
       ∧ Forall2 (λ lg size, Z.of_nat (length (teams lg)) = size) ls league_sizes).
Proof.
  intros H.
  destruct (H (λ l, l) (λ k, k) [tA; tB] [3; -1]
              [mkLeague "リーグ1" [tA; tB] []; mkLeague "リーグ2" [] []]
              (λ l, reflexivity l) eq_refl) as [_ Hsizes].
  { vm_compute. reflexivity. }
  apply Forall2_cons_1 in Hsizes as [Hfirst _]. simpl in Hfirst. lia.
Qed.

Lemma chosen_league_least_crowded_witness :
  two_leagues !! 1%nat = Some (mkLeague "リーグ2" [tC] [])
  ∧ (region_count tA2 (mkLeague "リーグ2" [tC] [])
     ≤ region_count tA2 (mkLeague "リーグ1" [tA; tB] []))%nat.
Proof.
  destruct (chosen_league_least_crowded (λ k, k) [3; 2] 0 tA2 [] two_leagues
              1 (mkLeague "リーグ2" [tC] [])) as (H1 & _ & H3 & _).
  { vm_compute. reflexivity. }
  split; [exact H1|].
  apply (H3 0%nat (mkLeague "リーグ1" [tA; tB] []) 3); [reflexivity|reflexivity|].
  simpl. lia.
Defined.

Lemma partition_fails_only_when_full_witness :
  ∃ ls, divide_into_leagues (λ l, l) (λ k, k) [tA; tB; tC; tA2; tB2] [3; 2]
        = inr (Some ls).
Proof.
  apply (partition_fails_only_when_full (λ l, l) (λ k, k) (λ l, reflexivity l)
           [tA; tB; tC; tA2; tB2] [3; 2]).
  reflexivity.
Defined.

Example create_teams_first_last :
  length create_teams = 18%nat
  ∧ create_teams !! 0%nat = Some (mkTeam 1 "チームA-1" "A")
  ∧ create_teams !! 5%nat = Some (mkTeam 6 "チームD-1" "D")
  ∧ create_teams !! 17%nat = Some (mkTeam 18 "チームG-5" "G").
Proof. vm_compute. repeat split; reflexivity. Qed.

(** * Further properties *)

(** ** The search, step by step *)

(** One call of the search past the goal test and the end test, when the
    dictionary knows both ids of the candidate at [idx]. *)
Lemma find_step pairs n fuel ms counts idx lg t1 t2 c1 c2 :
  goal_reached n counts = false →
  pairs !! idx = Some (t1, t2) →
  counts !! id t1 = Some c1 → counts !! id t2 = Some c2 →
  _find_matches_recursive pairs n (S fuel) ms counts idx lg
  = match
      (if (c1 <? n) && (c2 <? n) then
         _find_matches_recursive pairs n fuel (ms ++ [(t1, t2)])
           (bump counts (t1, t2)) (S idx) lg
       else inr (false, lg))
    with
    | inl e => inl e
    | inr (true, lg1) => inr (true, lg1)
    | inr (false, lg1) =>
        match _find_matches_recursive pairs n fuel ms counts (S idx) lg1 with
        | inl e => inl e
        | inr (b, lg2) => inr (b, lg2)
        end
    end.
Proof.
  intros Hgoal Hp Hc1 Hc2. simpl. rewrite Hgoal.
  assert ((length pairs <=? idx)%nat = false) as ->.
  { apply Nat.leb_gt. by eapply lookup_lt_Some. }
  rewrite Nat.add_1_r.
  unfold bind at 1. unfold get_index. rewrite Hp. unfold ret at 1.
  unfold bind at 1. unfold get_item at 1. rewrite Hc1. unfold ret at 1.
  unfold bind at 1.
  assert (∀ l, (skipped <- _find_matches_recursive pairs n fuel ms counts (S idx) ;;
                if skipped : bool then ret true else ret false)%sched l
               = match _find_matches_recursive pairs n fuel ms counts (S idx) l with
                 | inl e => inl e
                 | inr (b, lg2) => inr (b, lg2)
                 end) as Hskip.
  { intros l. unfold bind.
    by destruct (_find_matches_recursive pairs n fuel ms counts (S idx) l)
      as [e|[[] l']]. }
  destruct (c1 <? n); simpl andb.
  - unfold bind at 1. unfold get_item at 1. rewrite Hc2. unfold ret at 1 2.
    destruct (c2 <? n).
    + unfold bind at 1. unfold bind at 1.
      rewrite incr_item_is_Some by eauto.
      unfold bind at 1.
      rewrite incr_item_is_Some by (rewrite lookup_insert_is_Some'; eauto).
      change (<[id t2:=_]> (<[id t1:=_]> counts)) with (bump counts (t1, t2)).
      destruct (_find_matches_recursive pairs n fuel (ms ++ [(t1, t2)]) _ _ lg)
        as [e|[[] lg1]]; [done|done|]. apply Hskip.
    + unfold bind at 1, ret at 1. apply Hskip.
  - unfold ret at 1. unfold bind at 1, ret at 1. apply Hskip.
Qed.

Lemma slots_nonneg k ms : 0 ≤ slots k ms.
Proof.
  induction ms as [|m ms IH]; simpl; [done|].
  repeat case_decide; lia.
Qed.

Lemma slots_app k ms1 ms2 : slots k (ms1 ++ ms2) = slots k ms1 + slots k ms2.
Proof. induction ms1 as [|m ms1 IH]; simpl; [done|]. rewrite IH. lia. Qed.

Lemma slots_Permutation k ms1 ms2 : ms1 ≡ₚ ms2 → slots k ms1 = slots k ms2.
Proof. induction 1; simpl; lia. Qed.

Lemma keys_known_bump counts pairs m :
  keys_known counts pairs → keys_known (bump counts m) pairs.
Proof. intros H. unfold bump. by do 2 apply keys_known_insert. Qed.

Lemma bump_lookup_None d m k :
  d !! k = None → id m.1 ≠ k → id m.2 ≠ k → bump d m !! k = None.
Proof. intros H H1 H2. unfold bump. by rewrite !lookup_insert_ne. Qed.

(** The counts after bumping along [ms], key by key, when the dictionary
    knows the ids of [ms]: no key is added and each count grows by the
    slots of its id. *)
Lemma foldl_bump_lookup ms : ∀ d k,
  keys_known d ms →
  foldl bump d ms !! k = (λ v, v + slots k ms) <$> d !! k.
Proof.
  induction ms as [|m ms IH]; intros d k Hkeys; simpl.
  { destruct (d !! k); simpl; [f_equal; lia|done]. }
  apply Forall_cons in Hkeys as [[H1 H2] Hkeys].
  rewrite IH by by apply keys_known_bump.
  destruct (d !! k) as [v|] eqn:Hk.
  - destruct (bump_is_Some d m k) as [w Hw]; [by rewrite Hk|].
    rewrite Hw. simpl. f_equal.
    pose proof (bump_lookup_total d m k) as Hb.
    rewrite (lookup_total_correct _ _ _ Hw), (lookup_total_correct _ _ _ Hk) in Hb.
    simpl in Hb. lia.
  - rewrite bump_lookup_None; [done|done| |]; intros <-;
      rewrite Hk in *; by eapply is_Some_None.
Qed.

Lemma goal_reached_true n d :
  goal_reached n d = true ↔ ∀ k v, d !! k = Some v → v = n.
Proof. unfold goal_reached. by rewrite bool_decide_eq_true. Qed.

Lemma goal_reached_foldl_bump n d ms :
  keys_known d ms →
  goal_reached n (foldl bump d ms) = true ↔ meets_target n d ms.
Proof.
  intros Hkeys. rewrite goal_reached_true. unfold meets_target. split.
  - intros H k v Hk. apply (H k). by rewrite foldl_bump_lookup, Hk.
  - intros H k w. rewrite foldl_bump_lookup by done.
    destruct (d !! k) as [v|] eqn:Hk; [|done]. simpl. intros [= <-]. by eapply H.
Qed.

Lemma keys_known_sublist d l k :
  sublist l k → keys_known d k → keys_known d l.
Proof. apply Forall_sublist_of. Qed.

(** The search is exhaustive: when some in-order selection of the
    candidates from [idx] on brings every count to the target, it returns
    [True]. *)
Lemma find_complete pairs n fuel :
  ∀ ms counts idx lg extra,
    keys_known counts pairs →
    (length pairs - idx < fuel)%nat →
    sublist extra (drop idx pairs) →
    goal_reached n (foldl bump counts extra) = true →
    ∃ lg', _find_matches_recursive pairs n fuel ms counts idx lg = inr (true, lg').
Proof.
  induction fuel as [|fuel IH]; intros ms counts idx lg extra Hkeys Hfuel Hsub Hgoal;
    [lia|].
  destruct (goal_reached n counts) eqn:Hnow.
  { simpl. rewrite Hnow. unfold bind, set_matches, ret. eauto. }
  destruct (pairs !! idx) as [[t1 t2]|] eqn:Hp.
  2:{ apply lookup_ge_None in Hp. rewrite drop_ge in Hsub by done.
      apply sublist_nil_r in Hsub as ->. simpl in Hgoal. congruence. }
  destruct (Forall_lookup_1 _ _ _ _ Hkeys Hp) as [[c1 Hc1] [c2 Hc2]].
  simpl in Hc1, Hc2.
  rewrite (find_step _ _ _ _ _ _ _ _ _ _ _ Hnow Hp Hc1 Hc2).
  rewrite (drop_S _ _ _ Hp) in Hsub.
  pose proof (lookup_lt_Some _ _ _ Hp) as Hlt.
  assert (∀ l, sublist extra (drop (S idx) pairs) →
            ∃ lg', match _find_matches_recursive pairs n fuel ms counts (S idx) l with
                   | inl e => inl e
                   | inr (b, lg2) => inr (b, lg2)
                   end = inr (true, lg')) as Hskip.
  { intros l Hsub'.
    destruct (IH ms counts (S idx) l extra) as [lg' ->]; [done|lia|done|done|eauto]. }
  apply sublist_cons_r in Hsub as [Hsub|(extra' & -> & Hsub)].
  - (* the selection leaves this candidate out *)
    destruct ((c1 <? n) && (c2 <? n)); [|by apply Hskip].
    destruct (find_total pairs n fuel (ms ++ [(t1, t2)]) (bump counts (t1, t2))
                (S idx) lg) as (b & lg1 & Hrun); [by apply keys_known_bump|lia|].
    rewrite Hrun. destruct b; [eauto|].
    apply find_returns in Hrun as ->. by apply Hskip.
  - (* the selection takes this candidate: both counts are below the target *)
    simpl in Hgoal.
    assert (keys_known counts ((t1, t2) :: extra')) as Hk.
    { constructor; [by eauto|].
      eapply keys_known_sublist; [exact Hsub|].
      unfold keys_known. rewrite <- (take_drop (S idx) pairs) in Hkeys.
      by apply Forall_app in Hkeys as [_ ?]. }
    pose proof (proj1 (goal_reached_foldl_bump n counts ((t1, t2) :: extra') Hk) Hgoal)
      as Hmeet.
    pose proof (Hmeet _ _ Hc1) as E1. pose proof (Hmeet _ _ Hc2) as E2.
    pose proof (slots_nonneg (id t1) extra'). pose proof (slots_nonneg (id t2) extra').
    simpl in E1, E2. rewrite decide_True in E1 by done.
    rewrite (decide_True (P:=id t2 = id t2)) in E2 by done.
    assert ((c1 <? n) && (c2 <? n) = true) as ->.
    { apply andb_true_iff. split; apply Z.ltb_lt; repeat case_decide; lia. }
    destruct (IH (ms ++ [(t1, t2)]) (bump counts (t1, t2)) (S idx) lg extra')
      as [lg' ->]; [by apply keys_known_bump|lia|done|done|eauto].
Qed.

(** ** What a successful schedule looks like *)

Lemma sorted_pair_le t u : id (sorted_pair t u).1 ≤ id (sorted_pair t u).2.
Proof. unfold sorted_pair. destruct (Z.ltb_spec (id u) (id t)); simpl; lia. Qed.

(** Every candidate joins two teams of the league, of different regions,
    the one with the smaller id first. *)
Lemma possible_pairs_wellformed ts :
  Forall (λ p, p.1 ∈ ts ∧ p.2 ∈ ts ∧ region p.1 ≠ region p.2 ∧ id p.1 ≤ id p.2)
    (possible_pairs ts).
Proof.
  apply Forall_forall. intros p Hp.
  destruct (elem_of_possible_pairs _ _ Hp) as (H1 & H2 & H3).
  split_and!; try done. clear H1 H2 H3.
  induction ts as [|t ts IH]; [by apply elem_of_nil in Hp|].
  rewrite possible_pairs_cons, elem_of_app, elem_of_pairs_with in Hp.
  destruct Hp as [(u & _ & _ & ->)|Hp]; [apply sorted_pair_le|by apply IH].
Qed.

Lemma sum_with_indicator (ks : list Z) x :
  NoDup ks → x ∈ ks → sum_with (λ k, if decide (x = k) then 1 else 0) ks = 1.
Proof.
  induction 1 as [|k ks Hk Hnd IH]; [by intros ?%elem_of_nil|].
  simpl. intros [->|Hin]%elem_of_cons.
  - rewrite decide_True by done.
    assert (sum_with (λ k0, if decide (k = k0) then 1 else 0) ks = 0) as ->; [|done].
    clear IH Hnd. induction ks as [|k' ks IH]; [done|]. simpl.
    rewrite decide_False by (intros ->; apply Hk; constructor).
    rewrite IH; [done|]. intros ?. apply Hk. by constructor 2.
  - rewrite decide_False by (intros ->; done). rewrite IH by done. done.
Qed.

Lemma sum_with_add {A} (f g : A → Z) l :
  sum_with (λ x, f x + g x) l = sum_with f l + sum_with g l.
Proof. induction l as [|x l IH]; simpl; [done|]. rewrite IH. lia. Qed.

Lemma sum_with_const {A} (f : A → Z) c l :
  (∀ x, x ∈ l → f x = c) → sum_with f l = c * Z.of_nat (length l).
Proof.
  induction l as [|x l IH]; intros H; simpl length; simpl sum_with; [lia|].
  rewrite H by constructor. rewrite IH; [lia|]. intros y Hy. apply H. by constructor 2.
Qed.

(** Each match fills two slots: summed over distinct ids that cover the
    matches, the slots are twice the matches. *)
Lemma sum_slots ks ms :
  NoDup ks → Forall (λ m, id m.1 ∈ ks ∧ id m.2 ∈ ks) ms →
  sum_with (λ k, slots k ms) ks = 2 * Z.of_nat (length ms).
Proof.
  intros Hnd. induction 1 as [|m ms [H1 H2] _ IH].
  { simpl. rewrite (sum_with_const _ 0); [lia|done]. }
  simpl slots. simpl length.
  rewrite (sum_with_add (λ k, (if decide (id m.1 = k) then 1 else 0)
                              + (if decide (id m.2 = k) then 1 else 0))
                        (λ k, slots k ms)).
  rewrite (sum_with_add (λ k, if decide (id m.1 = k) then 1 else 0)
                        (λ k, if decide (id m.2 = k) then 1 else 0)).
  rewrite !sum_with_indicator, IH by done. lia.
Qed.

Lemma matches_played_opponents ts t ms :
  NoDup ts → NoDup ms →
  Forall (λ p, p.1 ∈ ts ∧ p.2 ∈ ts ∧ region p.1 ≠ region p.2 ∧ id p.1 < id p.2) ms →
  (matches_played t ms ≤ length (other_region_teams t ts))%nat.
Proof.
  intros Hts Hms Hwf. unfold matches_played.
  rewrite <- (length_fmap (opponent t)).
  apply submseteq_length, NoDup_submseteq.
  - apply NoDup_fmap_2_strong; [|by apply NoDup_filter].
    intros m1 m2 [Hp1 Hin1]%list_elem_of_filter [Hp2 Hin2]%list_elem_of_filter Heq.
    pose proof (proj1 (Forall_forall _ _) Hwf _ Hin1) as (_ & _ & _ & Ho1).
    pose proof (proj1 (Forall_forall _ _) Hwf _ Hin2) as (_ & _ & _ & Ho2).
    destruct m1 as [a1 b1], m2 as [a2 b2]. unfold opponent, plays_in in *.
    simpl in *. repeat case_decide; destruct Hp1, Hp2; subst; try done; lia.
  - intros u (m & -> & [Hp Hin]%list_elem_of_filter)%list_elem_of_fmap.
    pose proof (proj1 (Forall_forall _ _) Hwf _ Hin) as (H1 & H2 & Hr & _).
    unfold other_region_teams. apply list_elem_of_filter.
    unfold opponent, plays_in in *. case_decide; destruct Hp; subst; try done.
    all: split; try done; congruence.
Qed.

Section SchedulerFurther.

Context (shuffle : list (Team * Team) → list (Team * Team)).
Hypothesis shuffle_permutes : ∀ l, shuffle l ≡ₚ l.

Lemma generate_total n lg :
  ∃ b lg', generate_matches_for_league shuffle n lg = inr (b, lg').
Proof.
  unfold generate_matches_for_league.
  apply find_total; [by apply keys_known_initial|lia].
Qed.

Lemma scheduled_wellformed n lg lg' :
  generate_matches_for_league shuffle n lg = inr (true, lg') →
  Forall (λ p, p.1 ∈ teams lg ∧ p.2 ∈ teams lg
               ∧ region p.1 ≠ region p.2 ∧ id p.1 ≤ id p.2) (matches lg').
Proof.
  intros (Hsub & _ & _)%generate_returns.
  eapply Forall_sublist_of; [exact Hsub|].
  apply shuffled_candidates; [done|]. apply possible_pairs_wellformed.
Qed.

Lemma scheduled_strict n lg lg' :
  NoDup (id <$> teams lg) →
  generate_matches_for_league shuffle n lg = inr (true, lg') →
  NoDup (matches lg')
  ∧ Forall (λ p, p.1 ∈ teams lg ∧ p.2 ∈ teams lg
                 ∧ region p.1 ≠ region p.2 ∧ id p.1 < id p.2) (matches lg').
Proof.
  intros Hnd Hgen. pose proof (scheduled_wellformed _ _ _ Hgen) as Hwf.
  apply generate_returns in Hgen as (Hsub & _ & _). split.
  - eapply sublist_NoDup; [|exact Hsub].
    rewrite shuffle_permutes. by apply possible_pairs_NoDup.
  - assert (Forall (λ p, id p.1 < id p.2) (matches lg')) as Hlt.
    { eapply Forall_sublist_of; [exact Hsub|].
      apply shuffled_candidates; [done|]. by apply possible_pairs_ordered. }
    apply Forall_forall. intros p Hp.
    pose proof (proj1 (Forall_forall _ _) Hwf _ Hp) as (? & ? & ? & _).
    pose proof (proj1 (Forall_forall _ _) Hlt _ Hp). done.
Qed.

Lemma scheduled_meets_target n lg lg' :
  generate_matches_for_league shuffle n lg = inr (true, lg') →
  meets_target n (initial_match_counts (teams lg)) (matches lg').
Proof.
  intros (Hsub & _ & Hgoal)%generate_returns.
  apply goal_reached_foldl_bump; [|done].
  eapply keys_known_sublist; [exact Hsub|]. by apply keys_known_initial.
Qed.

Lemma scheduled_slots n lg lg' t :
  generate_matches_for_league shuffle n lg = inr (true, lg') →
  t ∈ teams lg → slots (id t) (matches lg') = n.
Proof.
  intros Hmeet%scheduled_meets_target Ht.
  pose proof (Hmeet _ _ (initial_match_counts_team _ _ Ht)). lia.
Qed.

Lemma strict_members (ts : list Team) (ms : list (Team * Team)) :
  Forall (λ p, p.1 ∈ ts ∧ p.2 ∈ ts ∧ region p.1 ≠ region p.2 ∧ id p.1 < id p.2) ms →
  Forall (λ p, p.1 ∈ ts ∧ p.2 ∈ ts ∧ id p.1 < id p.2) ms.
Proof. intros H. eapply Forall_impl; [exact H|]. by intros p (? & ? & _ & ?). Qed.

(** X1. For a league whose teams have distinct ids, the scheduler returns
    [True] exactly when some selection of the candidate pairs gives every
    team [num_matches_per_team] matches: the search misses no schedule. *)
Theorem schedule_found_iff_exists n lg :
  NoDup (id <$> teams lg) →
  (∃ lg', generate_matches_for_league shuffle n lg = inr (true, lg'))
  ↔ ∃ ms, sublist ms (shuffle (possible_pairs (teams lg)))
          ∧ ∀ t, t ∈ teams lg → Z.of_nat (matches_played t ms) = n.
Proof.
  intros Hnd. split.
  - intros [lg' Hgen]. exists (matches lg').
    pose proof (scheduled_strict _ _ _ Hnd Hgen) as [_ Hwf].
    split; [by apply generate_returns in Hgen as (? & _)|].
    intros t Ht.
    rewrite (matches_played_slots (teams lg)); [|done|done|by apply strict_members].
    by eapply scheduled_slots.
  - intros (ms & Hsub & Hplayed). unfold generate_matches_for_league.
    apply (find_complete _ _ _ _ _ _ _ ms); [by apply keys_known_initial|lia|done|].
    assert (keys_known (initial_match_counts (teams lg)) ms) as Hkeys.
    { eapply keys_known_sublist; [exact Hsub|]. by apply keys_known_initial. }
    apply goal_reached_foldl_bump; [done|].
    intros k v. rewrite initial_match_counts_lookup.
    case_decide as Hk; [|done]. intros [= <-].
    apply list_elem_of_fmap in Hk as (t & -> & Ht).
    rewrite <- (Hplayed t Ht), (matches_played_slots (teams lg)); [lia|done|done|].
    eapply Forall_sublist_of; [exact Hsub|]. apply shuffled_candidates; [done|].
    pose proof (possible_pairs_ordered _ Hnd) as Hord.
    apply Forall_forall. intros p Hp.
    destruct (elem_of_possible_pairs _ _ Hp) as (? & ? & _).
    pose proof (proj1 (Forall_forall _ _) Hord _ Hp). done.
Qed.

(** Each team fills [n] slots and each match two of them. *)
Lemma scheduled_count n lg lg' :
  NoDup (id <$> teams lg) →
  generate_matches_for_league shuffle n lg = inr (true, lg') →
  2 * Z.of_nat (length (matches lg')) = n * Z.of_nat (length (teams lg)).
Proof.
  intros Hnd Hgen.
  rewrite <- (sum_slots (id <$> teams lg)); [|done|].
  - rewrite (sum_with_const _ n); [by rewrite length_fmap|].
    intros k (t & -> & Ht)%list_elem_of_fmap. by eapply scheduled_slots.
  - pose proof (scheduled_wellformed _ _ _ Hgen) as Hwf.
    eapply Forall_impl; [exact Hwf|]. intros p (H1 & H2 & _).
    split; by apply list_elem_of_fmap_2.
Qed.

(** X3. A successful schedule of a league with distinct ids holds
    [num_matches_per_team * len(teams) / 2] matches: twice the matches is
    the target times the number of teams. *)
Theorem scheduled_match_count n lg lg' :
  NoDup (id <$> teams lg) →
  generate_matches_for_league shuffle n lg = inr (true, lg') →
  2 * Z.of_nat (length (matches lg')) = n * Z.of_nat (length (teams lg)).
Proof. apply scheduled_count. Qed.

(** X4. When ids are distinct and [num_matches_per_team * len(teams)] is
    odd, the scheduler returns [False]. *)
Theorem odd_total_never_schedules n lg :
  NoDup (id <$> teams lg) →
  Z.odd (n * Z.of_nat (length (teams lg))) = true →
  generate_matches_for_league shuffle n lg = inr (false, lg).
Proof.
  intros Hnd Hodd. destruct (generate_total n lg) as ([] & lg' & Hgen).
  - pose proof (scheduled_count _ _ _ Hnd Hgen) as Hcount.
    rewrite <- Hcount, Z.odd_mul in Hodd. done.
  - rewrite Hgen. by apply generate_returns in Hgen as ->.
Qed.

(** X5. A successful run changes nothing of the league but its matches,
    and every stored match joins two different teams of the league, the
    one with the smaller id first. *)
Theorem scheduled_matches_within_league n lg lg' :
  generate_matches_for_league shuffle n lg = inr (true, lg') →
  league_name lg' = league_name lg ∧ teams lg' = teams lg
  ∧ ∀ a b, (a, b) ∈ matches lg' →
           a ∈ teams lg ∧ b ∈ teams lg ∧ a ≠ b ∧ id a ≤ id b.
Proof.
  intros Hgen. pose proof (scheduled_wellformed _ _ _ Hgen) as Hwf.
  apply generate_returns in Hgen as (_ & -> & _). split_and!; [done|done|].
  intros a b Hin.
  pose proof (proj1 (Forall_forall _ _) Hwf _ Hin) as (? & ? & Hr & ?).
  simpl in *. split_and!; try done. by intros ->.
Qed.

(** X7. When ids are distinct and some team of the league has fewer than
    [num_matches_per_team] league teams of other regions, the scheduler
    returns [False]. *)
Theorem too_few_opponents_fails n lg t :
  NoDup (id <$> teams lg) →
  t ∈ teams lg →
  Z.of_nat (length (other_region_teams t (teams lg))) < n →
  generate_matches_for_league shuffle n lg = inr (false, lg).
Proof.
  intros Hnd Ht Hfew. destruct (generate_total n lg) as ([] & lg' & Hgen).
  - exfalso. pose proof (scheduled_strict _ _ _ Hnd Hgen) as [Hms Hwf].
    pose proof (matches_played_opponents (teams lg) t (matches lg')
                  (NoDup_fmap_1 _ _ Hnd) Hms Hwf) as Hle.
    pose proof (scheduled_slots _ _ _ t Hgen Ht) as Hslots.
    rewrite <- (matches_played_slots (teams lg)) in Hslots;
      [lia|done|done|by apply strict_members].
  - rewrite Hgen. by apply generate_returns in Hgen as ->.
Qed.

End SchedulerFurther.

(** X6. An empty league is scheduled at once, whatever the target: the
    goal test holds on the empty dictionary. *)
Theorem empty_league_succeeds shuffle n lg :
  teams lg = [] →
  generate_matches_for_league shuffle n lg
  = inr (true, mkLeague (league_name lg) [] []).
Proof.
  intros Hempty. unfold generate_matches_for_league. rewrite Hempty.
  assert (goal_reached n (initial_match_counts []) = true) as Hgoal.
  { apply goal_reached_true. intros k v. by rewrite initial_match_counts_lookup. }
  simpl. rewrite Hgoal.
  unfold bind, set_matches, ret. by rewrite Hempty.
Qed.

(** X2. Whether the scheduler succeeds does not depend on the shuffle:
    two calls on the same league and target return the same boolean,
    whatever the two orders of the candidates. *)
Theorem outcome_independent_of_shuffle shuffle1 shuffle2 n lg b1 lg1 b2 lg2 :
  (∀ l, shuffle1 l ≡ₚ l) → (∀ l, shuffle2 l ≡ₚ l) →
  generate_matches_for_league shuffle1 n lg = inr (b1, lg1) →
  generate_matches_for_league shuffle2 n lg = inr (b2, lg2) →
  b1 = b2.
Proof.
  assert (∀ sh sh' l',
            (∀ l, sh l ≡ₚ l) → (∀ l, sh' l ≡ₚ l) →
            generate_matches_for_league sh n lg = inr (true, l') →
            ∃ l'', generate_matches_for_league sh' n lg = inr (true, l'')) as Hone.
  { intros sh sh' l' Hsh Hsh' Hgen.
    pose proof (scheduled_meets_target sh Hsh _ _ _ Hgen) as Hmeet.
    apply generate_returns in Hgen as (Hsub & _ & _).
    destruct (sublist_Permutation _ _ (sh' (possible_pairs (teams lg))) Hsub)
      as (ms & Hperm & Hsub'); [by rewrite Hsh, Hsh'|].
    unfold generate_matches_for_league.
    apply (find_complete _ _ _ _ _ _ _ ms); [by apply keys_known_initial|lia|done|].
    apply goal_reached_foldl_bump.
    { eapply keys_known_sublist; [exact Hsub'|]. by apply keys_known_initial. }
    intros k v Hk. rewrite <- (slots_Permutation k _ _ Hperm). by apply Hmeet. }
  intros Hsh1 Hsh2 Hgen1 Hgen2.
  destruct b1, b2; try done.
  - destruct (Hone _ _ _ Hsh1 Hsh2 Hgen1) as [l'' Hgen]. congruence.
  - destruct (Hone _ _ _ Hsh2 Hsh1 Hgen2) as [l'' Hgen]. congruence.
Qed.

(** ** What the partitioner keeps *)

Lemma append_team_names leagues i lg team :
  leagues !! i = Some lg →
  league_name <$> append_team leagues i lg team = league_name <$> leagues
  ∧ matches <$> append_team leagues i lg team = matches <$> leagues.
Proof.
  intros Hi. unfold append_team. rewrite !list_fmap_insert. simpl.
  split; apply list_insert_id; by rewrite list_lookup_fmap, Hi.
Qed.

Lemma append_team_capacity league_sizes leagues c lg size team :
  leagues !! c = Some lg → league_sizes !! c = Some size →
  Z.of_nat (length (teams lg)) < size →
  Forall2 (λ lg size, Z.of_nat (length (teams lg)) ≤ Z.max 0 size) leagues league_sizes →
  Forall2 (λ lg size, Z.of_nat (length (teams lg)) ≤ Z.max 0 size)
    (append_team leagues c lg team) league_sizes.
Proof.
  intros Hlg Hsize Hlt Hroom. unfold append_team.
  rewrite <- (list_insert_id league_sizes c size Hsize).
  apply Forall2_insert; [done|]. simpl. rewrite length_app. simpl. lia.
Qed.

(** What a pass of the loop that places every team of [ts] keeps: the
    names and matches of the leagues, the bound of each league by its size,
    and the order of the teams. *)
Lemma place_teams_keeps draws league_sizes ts :
  ∀ k leagues ls seen,
    place_teams draws league_sizes k ts leagues = inr (Some ls) →
    (league_name <$> ls = league_name <$> leagues
     ∧ matches <$> ls = matches <$> leagues)
    ∧ (Forall2 (λ lg size, Z.of_nat (length (teams lg)) ≤ Z.max 0 size)
         leagues league_sizes →
       Forall2 (λ lg size, Z.of_nat (length (teams lg)) ≤ Z.max 0 size)
         ls league_sizes)
    ∧ (Forall (λ lg, sublist (teams lg) seen) leagues →
       Forall (λ lg, sublist (teams lg) (seen ++ ts)) ls).
Proof.
  induction ts as [|team rest IH]; intros k leagues ls seen; simpl.
  { intros [= <-]. by rewrite app_nil_r. }
  destruct (choose_league _ _ _ _) as [e|[[c lg]|]] eqn:Hchoice; [done| |done].
  apply choose_league_position in Hchoice as (Hlg & (size & Hsize & Hlt) & _).
  intros ((Hn & Hm) & Hcap & Hord)%(IH _ _ _ (seen ++ [team])).
  destruct (append_team_names leagues c lg team Hlg) as [En Em].
  split_and!.
  - by rewrite Hn.
  - by rewrite Hm.
  - intros H. by eapply Hcap, append_team_capacity.
  - intros H. rewrite <- app_assoc in Hord. simpl in Hord. apply Hord.
    unfold append_team. apply Forall_insert.
    + eapply Forall_impl; [exact H|]. intros lg0 ?. by apply sublist_inserts_r.
    + simpl. apply sublist_app; [|done].
      by apply (proj1 (Forall_forall _ _) H), (list_elem_of_lookup_2 _ c).
Qed.

Lemma fresh_leagues_capacity league_sizes :
  Forall2 (λ lg size, Z.of_nat (length (teams lg)) ≤ Z.max 0 size)
    (fresh_leagues league_sizes) league_sizes.
Proof.
  apply Forall2_same_length_lookup_2; [apply fresh_leagues_length|].
  intros i lg size Hlg _. unfold fresh_leagues in Hlg.
  apply list_lookup_fmap_Some in Hlg as (j & -> & _). simpl. lia.
Qed.

Lemma capacity_total leagues league_sizes :
  Forall2 (λ lg size, Z.of_nat (length (teams lg)) ≤ Z.max 0 size) leagues league_sizes →
  Z.of_nat (length (placed leagues)) ≤ capacity league_sizes.
Proof.
  intros H. unfold capacity. apply room_total. by apply Forall2_fmap_r.
Qed.

Lemma full_capacity leagues league_sizes :
  Forall2 (λ lg size, size ≤ Z.of_nat (length (teams lg))) leagues league_sizes →
  capacity league_sizes ≤ Z.of_nat (length (placed leagues)).
Proof.
  intros H. unfold capacity. apply full_total, Forall2_fmap_r.
  eapply Forall2_impl; [exact H|]. simpl. intros lg size ?. lia.
Qed.

Section PartitionerFurther.

Context (sample : list Team → list Team) (draws : nat → nat).
Hypothesis sample_permutes : ∀ l, sample l ≡ₚ l.

(** X8. The leagues returned are one per size, in the order of the sizes,
    the i-th named with the number i + 1, and none has a match yet. *)
Theorem partition_names_and_order ts league_sizes ls :
  divide_into_leagues sample draws ts league_sizes = inr (Some ls) →
  league_name <$> ls = league_label <$> seq 0 (length league_sizes)
  ∧ Forall (λ lg, matches lg = []) ls.
Proof.
  unfold divide_into_leagues.
  intros ((Hn & Hm) & _)%(place_teams_keeps _ _ _ _ _ _ []).
  unfold fresh_leagues in Hn, Hm. rewrite <- !list_fmap_compose in Hn, Hm.
  split; [done|].
  apply Forall_forall. intros lg Hlg.
  assert (matches lg ∈ matches <$> ls) as Hin by by apply list_elem_of_fmap_2.
  rewrite Hm in Hin. by apply list_elem_of_fmap in Hin as (i & -> & _).
Qed.

(** X9. No league is filled beyond its size: each returned league holds at
    most [max(0, size)] teams, for any sizes. *)
Theorem partition_never_overfills ts league_sizes ls :
  divide_into_leagues sample draws ts league_sizes = inr (Some ls) →
  Forall2 (λ lg size, Z.of_nat (length (teams lg)) ≤ Z.max 0 size) ls league_sizes.
Proof.
  unfold divide_into_leagues.
  intros (_ & Hcap & _)%(place_teams_keeps _ _ _ _ _ _ []).
  apply Hcap, fresh_leagues_capacity.
Qed.

(** X10. The partitioner raises nothing, and it returns [None] exactly when
    the leagues cannot take all the teams: when the sizes, a negative one
    counting as 0, add up to less than the number of teams. *)
Theorem partition_fails_iff_short ts league_sizes :
  (capacity league_sizes < Z.of_nat (length ts) →
   divide_into_leagues sample draws ts league_sizes = inr None)
  ∧ (Z.of_nat (length ts) ≤ capacity league_sizes →
     ∃ ls, divide_into_leagues sample draws ts league_sizes = inr (Some ls)).
Proof.
  destruct (place_teams_total draws league_sizes (sample ts) 0
              (fresh_leagues league_sizes)) as [r Hrun];
    [apply fresh_leagues_length|].
  fold (divide_into_leagues sample draws ts league_sizes) in Hrun.
  destruct r as [ls|].
  - assert (Z.of_nat (length ts) ≤ capacity league_sizes) as Hfit.
    { unfold divide_into_leagues in Hrun.
      pose proof (place_teams_keeps _ _ _ _ _ _ [] Hrun) as (_ & Hcap & _).
      specialize (Hcap (fresh_leagues_capacity _)).
      apply capacity_total in Hcap.
      apply place_teams_Some in Hrun as (_ & Hperm & _).
      unfold fresh_leagues in Hperm at 1.
      rewrite placed_fresh, app_nil_r, sample_permutes in Hperm.
      by rewrite Hperm in Hcap. }
    split; [lia|by eauto].
  - assert (capacity league_sizes < Z.of_nat (length ts)) as Hshort.
    { destruct (divide_None_full _ _ _ _ Hrun)
        as (pre & team & post & ls & Hsplit & Hpre & Hfull).
      apply full_capacity in Hfull.
      apply place_teams_Some in Hpre as (_ & Hperm & _).
      unfold fresh_leagues in Hperm at 1.
      rewrite placed_fresh, app_nil_r in Hperm. rewrite Hperm in Hfull.
      assert (length ts = length (pre ++ team :: post)) as Hlen
        by by rewrite <- Hsplit, sample_permutes.
      rewrite length_app in Hlen. simpl in Hlen. lia. }
    split; [done|lia].
Qed.

(** X11. Inside each returned league the teams stand in the order in
    which the shuffled list had them. *)
Theorem partition_keeps_shuffled_order ts league_sizes ls :
  divide_into_leagues sample draws ts league_sizes = inr (Some ls) →
  Forall (λ lg, sublist (teams lg) (sample ts)) ls.
Proof.
  unfold divide_into_leagues.
  intros (_ & _ & Hord)%(place_teams_keeps _ _ _ _ _ _ []).
  apply Hord. unfold fresh_leagues. apply Forall_fmap, Forall_forall.
  intros i _. simpl. apply sublist_nil_l.
Qed.

End PartitionerFurther.

(** ** The team catalog *)

(** The teams that one region adds, when the counter stands at [c]. *)
Lemma add_region_teams_spec region count ts c :
  add_region_teams region count (ts, c)
  = (ts ++ ((λ i, mkTeam (c + (i - 1)) (team_name region i) region) <$> seqZ 1 count),
     c + Z.max 0 count).
Proof.
  unfold add_region_teams.
  destruct (Z.le_gt_cases count 0) as [Hle|Hgt].
  { rewrite seqZ_nil by done. simpl. rewrite app_nil_r. f_equal. lia. }
  rewrite <- (Z2Nat.id count) by lia. generalize (Z.to_nat count) as m. clear Hgt.
  induction m as [|m IH]; [simpl; rewrite app_nil_r; f_equal; lia|].
  rewrite seqZ_S, foldl_snoc, IH, fmap_app, app_assoc. simpl.
  replace (c + (1 + Z.of_nat m - 1)) with (c + Z.max 0 (Z.of_nat m)) by lia.
  f_equal. lia.
Qed.

(** The catalog, region after region: the teams built from a list of
    regions when the counter starts at [c]. *)
Lemma create_teams_loop defs : ∀ ts c,
  foldl (λ st '(region, count), add_region_teams region count st) (ts, c) defs
  = (ts ++ (foldl (λ st '(region, count), add_region_teams region count st)
              ([], c) defs).1,
     c + sum_with (λ rc, Z.max 0 rc.2) defs).
Proof.
  induction defs as [|[region count] defs IH]; intros ts c; simpl.
  { rewrite app_nil_r. f_equal. lia. }
  rewrite !add_region_teams_spec. rewrite IH. simpl app.
  rewrite (IH (_ <$> _)). simpl. rewrite app_assoc. f_equal. lia.
Qed.

Lemma create_teams_from_cons region count defs :
  create_teams_from ((region, count) :: defs)
  = ((λ i, mkTeam i (team_name region i) region) <$> seqZ 1 count)
    ++ (foldl (λ st '(region, count), add_region_teams region count st)
          ([], 1 + Z.max 0 count) defs).1.
Proof.
  unfold create_teams_from. simpl. rewrite add_region_teams_spec, create_teams_loop.
  simpl. f_equal. apply list_fmap_ext. intros _ i _. f_equal. lia.
Qed.

Lemma catalog_ids defs : ∀ c,
  id <$> (foldl (λ st '(region, count), add_region_teams region count st)
            ([], c) defs).1
  = seqZ c (sum_with (λ rc, Z.max 0 rc.2) defs).
Proof.
  induction defs as [|[region count] defs IH]; intros c; simpl; [done|].
  rewrite add_region_teams_spec, create_teams_loop. simpl.
  rewrite fmap_app, IH, <- list_fmap_compose.
  rewrite seqZ_app by (try apply Z.le_max_l; clear; induction defs; simpl; lia).
  f_equal.
  - destruct (Z.le_gt_cases count 0).
    + by rewrite !seqZ_nil by lia.
    + rewrite Z.max_r by lia. trans (Z.add (c - 1) <$> seqZ 1 count).
      * apply list_fmap_ext. intros _ i _. simpl. lia.
      * rewrite fmap_add_seqZ. f_equal. lia.
Qed.

Lemma catalog_regions defs : ∀ c,
  region <$> (foldl (λ st '(region, count), add_region_teams region count st)
                ([], c) defs).1
  = defs ≫= (λ rc, replicate (Z.to_nat rc.2) rc.1).
Proof.
  induction defs as [|[r count] defs IH]; intros c; simpl; [done|].
  rewrite add_region_teams_spec, create_teams_loop. simpl.
  rewrite fmap_app, IH, <- list_fmap_compose. f_equal.
  rewrite <- (length_seqZ 1 count). generalize (seqZ 1 count) as l.
  induction l as [|i l IHl]; [done|]. simpl. f_equal. exact IHl.
Qed.

Lemma catalog_names defs : ∀ c,
  name <$> (foldl (λ st '(region, count), add_region_teams region count st)
              ([], c) defs).1
  = defs ≫= (λ rc, team_name rc.1 <$> seqZ 1 rc.2).
Proof.
  induction defs as [|[r count] defs IH]; intros c; simpl; [done|].
  rewrite add_region_teams_spec, create_teams_loop. simpl.
  by rewrite fmap_app, IH, <- list_fmap_compose.
Qed.

Lemma length_filter_fmap {A B} (f : A → B) (r : B) `{EqDecision B} (l : list A) :
  length (filter (λ x, f x = r) l) = length (filter (λ y, y = r) (f <$> l)).
Proof.
  induction l as [|x l IH]; [done|]. rewrite fmap_cons, !filter_cons.
  destruct (decide (f x = r)); simpl; by rewrite IH.
Qed.

Lemma length_filter_replicate (r r' : string) n :
  length (filter (λ y, y = r) (replicate n r')) = if decide (r' = r) then n else 0%nat.
Proof.
  induction n as [|n IH]; simpl; [by case_decide|].
  rewrite filter_cons. destruct (decide (r' = r)); simpl; by rewrite IH.
Qed.

Lemma length_filter_blocks (defs : list (string * Z)) r :
  r ∉ defs.*1 →
  length (filter (λ y, y = r) (defs ≫= (λ rc, replicate (Z.to_nat rc.2) rc.1))) = 0%nat.
Proof.
  induction defs as [|[r' c'] defs IH]; [done|].
  rewrite fmap_cons, not_elem_of_cons, bind_cons, filter_app, length_app.
  intros [Hne Hnin]. rewrite length_filter_replicate, IH by done. simpl in *.
  by rewrite decide_False by done.
Qed.

(** X12. The catalog numbers the teams 1, 2, 3, ... in the order it builds
    them, so their ids are pairwise distinct; it builds [max(0, count)]
    teams for each region. *)
Theorem catalog_ids_consecutive defs :
  id <$> create_teams_from defs = seqZ 1 (sum_with (λ rc, Z.max 0 rc.2) defs)
  ∧ NoDup (id <$> create_teams_from defs)
  ∧ Z.of_nat (length (create_teams_from defs)) = sum_with (λ rc, Z.max 0 rc.2) defs.
Proof.
  assert (id <$> create_teams_from defs
          = seqZ 1 (sum_with (λ rc, Z.max 0 rc.2) defs)) as Hids
    by apply catalog_ids.
  split_and!; [done| |].
  - rewrite Hids. apply NoDup_seqZ.
  - rewrite <- (length_fmap id), Hids, length_seqZ.
    apply Z2Nat.id. clear. induction defs; simpl; lia.
Qed.

(** X13. The catalog lists the regions in the order of the dictionary,
    each with its teams in a row, named with the region and their number
    within it, from 1; for every item of the dictionary the catalog holds
    [count] teams of that region. *)
Theorem catalog_regions_and_names defs :
  NoDup defs.*1 →
  region <$> create_teams_from defs
  = defs ≫= (λ rc, replicate (Z.to_nat rc.2) rc.1)
  ∧ name <$> create_teams_from defs
    = defs ≫= (λ rc, team_name rc.1 <$> seqZ 1 rc.2)
  ∧ ∀ r c, (r, c) ∈ defs →
      length (filter (λ t, region t = r) (create_teams_from defs)) = Z.to_nat c.
Proof.
  intros Hkeys.
  assert (region <$> create_teams_from defs
          = defs ≫= (λ rc, replicate (Z.to_nat rc.2) rc.1)) as Hregions
    by apply catalog_regions.
  split_and!; [done| |].
  - apply catalog_names.
  - intros r c Hin. rewrite (length_filter_fmap region r), Hregions. clear Hregions.
    induction defs as [|[r' c'] defs IH]; [by apply elem_of_nil in Hin|].
    rewrite fmap_cons, NoDup_cons in Hkeys. destruct Hkeys as [Hr' Hkeys].
    rewrite bind_cons, filter_app, length_app, length_filter_replicate. simpl.
    apply elem_of_cons in Hin as [[= -> ->]|Hin].
    + rewrite decide_True by done. rewrite length_filter_blocks by done. lia.
    + rewrite decide_False.
      * by rewrite IH.
      * intros ->. apply Hr'. by apply (list_elem_of_fmap_2 fst _ (r, c)).
Qed.

Lemma catalog_regions_and_names_witness :
  length (filter (λ t, region t = "D") create_teams) = 6%nat.
Proof.
  refine (proj2 (proj2 (catalog_regions_and_names REGION_DEFINITIONS _)) "D" 6 _).
  - apply (bool_decide_unpack _). vm_compute. exact I.
  - apply (bool_decide_unpack _). vm_compute. exact I.
Defined.

(** ** The trial loop *)

Lemma strict_no_repeat (ms : list (Team * Team)) :
  NoDup ms → Forall (λ p, id p.1 < id p.2) ms →
  ∀ i j p q, i ≠ j → ms !! i = Some p → ms !! j = Some q → ¬ same_pairing p q.
Proof.
  intros Hnd Hord i j p q Hij Hp Hq [->|[E1 E2]].
  - apply Hij. by eapply NoDup_lookup.
  - pose proof (Forall_lookup_1 _ _ _ _ Hord Hp).
    pose proof (Forall_lookup_1 _ _ _ _ Hord Hq).
    simpl in *. rewrite E1, E2 in *. lia.
Qed.

(** A successful call on a league with distinct ids leaves a valid schedule. *)
Lemma scheduled_valid shuffle n lg lg' :
  (∀ l, shuffle l ≡ₚ l) →
  NoDup (id <$> teams lg) →
  generate_matches_for_league shuffle n lg = inr (true, lg') →
  teams lg' = teams lg ∧ league_name lg' = league_name lg ∧ valid_schedule n lg'.
Proof.
  intros Hperm Hnd Hgen.
  pose proof (scheduled_strict shuffle Hperm _ _ _ Hnd Hgen) as [Hms Hwf].
  pose proof (generate_returns _ _ _ _ _ Hgen) as (_ & Hlg' & _).
  assert (teams lg' = teams lg) as Hteams by by rewrite Hlg'.
  assert (league_name lg' = league_name lg) as Hname by by rewrite Hlg'.
  split_and!; [done|done|]. unfold valid_schedule. rewrite Hteams. split_and!.
  - intros t Ht.
    rewrite (matches_played_slots (teams lg)); [|done|done|by apply strict_members].
    by eapply scheduled_slots.
  - intros a b Hin.
    by pose proof (proj1 (Forall_forall _ _) Hwf _ Hin) as (? & ? & ? & _).
  - apply strict_no_repeat; [done|].
    eapply Forall_impl; [exact Hwf|]. by intros p (_ & _ & _ & ?).
Qed.

(** The loop over the leagues ends with [all_leagues_ok] only when every
    league was scheduled, each by its own call. *)
Lemma schedule_leagues_true shuffles n leagues :
  ∀ i ls out,
    schedule_leagues shuffles n i leagues = inr (true, ls, out) →
    Forall2 (λ lg lg', ∃ j, generate_matches_for_league (shuffles j) n lg
                            = inr (true, lg')) leagues ls.
Proof.
  induction leagues as [|lg rest IH]; intros i ls out; simpl.
  { intros [= <- <-]. constructor. }
  destruct (generate_matches_for_league _ _ _) as [e|[[] lg']] eqn:Hgen; [done| |done].
  destruct (schedule_leagues _ _ _ rest) as [e|[[ok rest'] out']] eqn:Hrest; [done|].
  intros [= -> <- <-]. constructor; [by eauto|]. by eapply IH.
Qed.

Lemma schedule_leagues_total shuffles n leagues :
  (∀ j l, shuffles j l ≡ₚ l) →
  ∀ i, ∃ ok ls out, schedule_leagues shuffles n i leagues = inr (ok, ls, out).
Proof.
  intros Hperm. induction leagues as [|lg rest IH]; intros i; simpl; [eauto|].
  destruct (generate_total (shuffles i) (Hperm i) n lg) as ([] & lg' & ->); [|eauto].
  destruct (IH (S i)) as (ok & ls & out & ->). eauto.
Qed.

(** What a partition that returns leagues gives, for sizes that are not
    negative and add up to the number of teams. *)
Lemma divide_Some_exact sample draws ts league_sizes ls :
  (∀ l, sample l ≡ₚ l) →
  Forall (λ size, 0 ≤ size) league_sizes →
  total_size league_sizes = Z.of_nat (length ts) →
  divide_into_leagues sample draws ts league_sizes = inr (Some ls) →
  placed ls ≡ₚ ts
  ∧ Forall2 (λ lg size, Z.of_nat (length (teams lg)) = size) ls league_sizes
  ∧ Forall (λ lg, sublist (teams lg) (sample ts)) ls.
Proof.
  intros Hsample Hpos Hsum Hdiv. unfold divide_into_leagues in Hdiv.
  pose proof (place_teams_keeps _ _ _ _ _ _ [] Hdiv) as (_ & _ & Hord).
  apply place_teams_Some in Hdiv as (Hlen & Hperm & Hroom).
  unfold fresh_leagues in Hperm at 1.
  rewrite placed_fresh, app_nil_r, Hsample in Hperm.
  split_and!; [done| |].
  - apply room_exact; [by apply Hroom, fresh_leagues_room|]. by rewrite Hperm.
  - apply Hord. unfold fresh_leagues. apply Forall_fmap, Forall_forall.
    intros i _. simpl. apply sublist_nil_l.
Qed.

Lemma divide_Some_total sample draws ts league_sizes :
  (∀ l, sample l ≡ₚ l) →
  total_size league_sizes = Z.of_nat (length ts) →
  ∃ ls, divide_into_leagues sample draws ts league_sizes = inr (Some ls).
Proof.
  intros Hsample Hsum.
  destruct (place_teams_total draws league_sizes (sample ts) 0
              (fresh_leagues league_sizes)) as [[ls|] Hrun];
    [apply fresh_leagues_length|by eauto|].
  exfalso.
  destruct (divide_None_full _ _ _ _ Hrun)
    as (pre & team & post & ls & Hsplit & Hpre & Hfull).
  apply full_total in Hfull.
  apply place_teams_Some in Hpre as (_ & Hperm & _).
  unfold fresh_leagues in Hperm at 1.
  rewrite placed_fresh, app_nil_r in Hperm. rewrite Hperm in Hfull.
  assert (length ts = length (pre ++ team :: post)) as Hlen
    by by rewrite <- Hsplit, Hsample.
  rewrite length_app in Hlen. simpl in Hlen. lia.
Qed.

Lemma catalog_length defs :
  Z.of_nat (length (create_teams_from defs)) = sum_with (λ rc, Z.max 0 rc.2) defs.
Proof.
  rewrite <- (length_fmap id). unfold create_teams_from.
  rewrite catalog_ids, length_seqZ.
  apply Z2Nat.id. induction defs; simpl; lia.
Qed.

Lemma catalog_NoDup defs : NoDup (id <$> create_teams_from defs).
Proof. unfold create_teams_from. rewrite catalog_ids. apply NoDup_seqZ. Qed.

Lemma sublist_ids_NoDup (ts all : list Team) sample :
  (∀ l : list Team, sample l ≡ₚ l) →
  NoDup (id <$> all) → sublist ts (sample all) → NoDup (id <$> ts).
Proof.
  intros Hsample Hnd Hsub.
  eapply sublist_NoDup; [|by apply (fmap_sublist id), Hsub].
  by rewrite Hsample.
Qed.

Lemma attempt_Some defs league_sizes n rnd a ls out :
  attempt defs league_sizes n rnd a = inr (Some ls, out) →
  ∃ ls0 out',
    divide_into_leagues (sample_of rnd a) (draws_of rnd a)
      (create_teams_from defs) league_sizes = inr (Some ls0)
    ∧ schedule_leagues (shuffle_of rnd a) n 0 ls0 = inr (true, ls, out').
Proof.
  unfold attempt.
  destruct (divide_into_leagues _ _ _ _) as [e|[ls0|]] eqn:Hdiv; [done| |done].
  destruct (schedule_leagues _ _ _ _) as [e|[[[] ls'] out']] eqn:Hsched;
    [done| |done].
  intros [= -> _]. eauto.
Qed.

Lemma trial_loop_Some defs league_sizes n rnd fuel :
  ∀ c ls out,
    trial_loop defs league_sizes n rnd fuel c = inr (Some ls, out) →
    ∃ a out', attempt defs league_sizes n rnd a = inr (Some ls, out').
Proof.
  induction fuel as [|fuel IH]; intros c ls out; simpl; [done|].
  destruct (attempt _ _ _ _ (S c)) as [e|[[ls'|] out']] eqn:Hatt; [done| |].
  - intros [= -> _]. eauto.
  - destruct (trial_loop _ _ _ _ fuel (S c)) as [e|[r out'']] eqn:Hloop; [done|].
    intros [= -> _]. by eapply IH.
Qed.

Lemma scheduled_all_valid (shuffles : nat → list (Team * Team) → list (Team * Team))
    n ls0 ls :
  (∀ j l, shuffles j l ≡ₚ l) →
  Forall (λ lg, NoDup (id <$> teams lg)) ls0 →
  Forall2 (λ lg lg', ∃ j, generate_matches_for_league (shuffles j) n lg
                          = inr (true, lg')) ls0 ls →
  teams <$> ls = teams <$> ls0 ∧ Forall (valid_schedule n) ls.
Proof.
  intros Hperm Hnd H. induction H as [|lg lg' ls0 ls [j Hgen] _ IH]; [done|].
  apply Forall_cons in Hnd as [Hlg Hnd]. destruct (IH Hnd) as [Hteams Hvalid].
  destruct (scheduled_valid _ _ _ _ (Hperm j) Hlg Hgen) as (Ht & _ & Hv).
  rewrite !fmap_cons, Ht, Hteams. split; [done|by constructor].
Qed.

Section Trials.

Context (region_definitions : list (string * Z)) (league_sizes : list Z).
Context (matches_per_team : Z) (rnd : Random).
Hypothesis rnd_permutes : permuting rnd.
Hypothesis sizes_not_negative : Forall (λ size, 0 ≤ size) league_sizes.
Hypothesis sizes_add_up :
  total_size league_sizes = sum_with (λ rc, Z.max 0 rc.2) region_definitions.

Lemma partition_of_catalog a :
  ∃ ls, divide_into_leagues (sample_of rnd a) (draws_of rnd a)
          (create_teams_from region_definitions) league_sizes = inr (Some ls)
        ∧ placed ls ≡ₚ create_teams_from region_definitions
        ∧ Forall2 (λ lg size, Z.of_nat (length (teams lg)) = size) ls league_sizes
        ∧ Forall (λ lg, NoDup (id <$> teams lg)) ls.
Proof.
  destruct rnd_permutes as [Hsample _].
  assert (total_size league_sizes
          = Z.of_nat (length (create_teams_from region_definitions))) as Hsum
    by by rewrite catalog_length.
  destruct (divide_Some_total _ (draws_of rnd a) _ _ (Hsample a) Hsum) as [ls Hdiv].
  exists ls.
  destruct (divide_Some_exact _ _ _ _ _ (Hsample a) sizes_not_negative Hsum Hdiv)
    as (Hperm & Hexact & Hord).
  split_and!; try done.
  eapply Forall_impl; [exact Hord|]. intros lg Hsub.
  eapply sublist_ids_NoDup; [apply (Hsample a)|apply catalog_NoDup|exact Hsub].
Qed.

(** X14. On the teams of the catalog, with league sizes that are not
    negative and add up to the number of teams, the partition step of a
    trial never fails: it returns leagues of exactly the sizes asked for,
    and the ids inside each league are pairwise distinct. *)
Theorem catalog_partition_succeeds a :
  ∃ ls, divide_into_leagues (sample_of rnd a) (draws_of rnd a)
          (create_teams_from region_definitions) league_sizes = inr (Some ls)
        ∧ Forall2 (λ lg size, Z.of_nat (length (teams lg)) = size) ls league_sizes
        ∧ Forall (λ lg, NoDup (id <$> teams lg)) ls.
Proof. destruct (partition_of_catalog a) as (ls & ? & _ & ? & ?). eauto. Qed.

(** X15. When the trial loop is left, the leagues that stand are an
    accepted configuration: every team of the catalog is in one league,
    each league has the size asked for, and each league's matches give
    every team [matches_per_team] matches, join teams of different regions
    of that league, and hold no pair twice. *)
Theorem main_reports_valid_configuration fuel leagues out :
  main_with region_definitions league_sizes matches_per_team rnd fuel
  = inr (Some leagues, out) →
  placed leagues ≡ₚ create_teams_from region_definitions
  ∧ Forall2 (λ lg size, Z.of_nat (length (teams lg)) = size) leagues league_sizes
  ∧ Forall (valid_schedule matches_per_team) leagues.
Proof.
  unfold main_with.
  destruct (trial_loop _ _ _ _ _ _) as [e|[r out']] eqn:Hloop; [done|].
  intros [= -> _].
  apply trial_loop_Some in Hloop as (a & out'' & Hatt).
  apply attempt_Some in Hatt as (ls0 & out3 & Hdiv & Hsched).
  destruct (partition_of_catalog a) as (ls0' & Hdiv' & Hperm & Hexact & Hnd).
  rewrite Hdiv in Hdiv'. injection Hdiv' as <-.
  apply schedule_leagues_true in Hsched.
  destruct (scheduled_all_valid _ _ _ _ (proj2 rnd_permutes a) Hnd Hsched)
    as [Hteams Hvalid].
  split_and!; [|
    |done].
  - unfold placed in *. by rewrite Hteams.
  - apply Forall2_fmap_l in Hexact.
    apply Forall2_fmap_l. simpl in *.
    assert (((λ lg, Z.of_nat (length (teams lg))) <$> leagues)
            = ((λ lg, Z.of_nat (length (teams lg))) <$> ls0)) as ->; [|done].
    rewrite !(list_fmap_compose teams (λ ts, Z.of_nat (length ts))).
    by rewrite Hteams.
Qed.

(** X16. When [matches_per_team] is odd and some league size is odd, no
    attempt is accepted: the trial loop is still running after any number
    of passes. *)
Theorem main_never_returns_when_odd fuel :
  Z.odd matches_per_team = true →
  (∃ size, size ∈ league_sizes ∧ Z.odd size = true) →
  ∃ out, main_with region_definitions league_sizes matches_per_team rnd fuel
         = inr (None, out).
Proof.
  intros Hn (size & Hsize & Hodd).
  assert (∀ a, ∃ out, attempt region_definitions league_sizes matches_per_team rnd a
                      = inr (None, out)) as Hattempt.
  { intros a. unfold attempt.
    destruct (partition_of_catalog a) as (ls0 & -> & _ & Hexact & Hnd).
    destruct (schedule_leagues_total (shuffle_of rnd a) matches_per_team ls0
                (proj2 rnd_permutes a) 0) as (ok & ls & out & Hsched).
    rewrite Hsched. destruct ok; [exfalso|by eauto].
    apply schedule_leagues_true in Hsched.
    apply list_elem_of_lookup_1 in Hsize as [i Hi].
    destruct (Forall2_lookup_r _ _ _ _ _ Hexact Hi) as (lg & Hlg & Hlen).
    destruct (Forall2_lookup_l _ _ _ _ _ Hsched Hlg) as (lg' & _ & j & Hgen).
    pose proof (scheduled_count _ (proj2 rnd_permutes a j) _ _ _
                  (proj1 (Forall_forall _ _) Hnd _ (list_elem_of_lookup_2 _ _ _ Hlg))
                  Hgen) as Hcount.
    assert (Z.odd (2 * Z.of_nat (length (matches lg'))) = true) as Hbad
      by by rewrite Hcount, Hlen, Z.odd_mul, Hn, Hodd.
    by rewrite Z.odd_mul in Hbad. }
  unfold main_with.
  assert (∀ c, ∃ out, trial_loop region_definitions league_sizes matches_per_team
                        rnd fuel c = inr (None, out)) as Hloop.
  { induction fuel as [|fuel' IH]; intros c; simpl; [eauto|].
    destruct (Hattempt (S c)) as [out ->].
    destruct (IH (S c)) as [out' ->]. eauto. }
  destruct (Hloop 0%nat) as [out ->]. eauto.
Qed.

End Trials.

(** X17. The loop over the leagues stops at the first league that cannot
    be scheduled: the leagues before it carry their schedules, that league
    and all the leagues after it are as they were. *)
Theorem trial_stops_at_first_failure shuffles n leagues :
  ∀ i ls out,
    schedule_leagues shuffles n i leagues = inr (false, ls, out) →
    ∃ pre pre' lg post,
      leagues = pre ++ lg :: post ∧ ls = pre' ++ lg :: post
      ∧ Forall2 (λ l l', ∃ j, generate_matches_for_league (shuffles j) n l
                              = inr (true, l')) pre pre'
      ∧ generate_matches_for_league (shuffles (i + length pre)%nat) n lg
        = inr (false, lg).
Proof.
  induction leagues as [|lg rest IH]; intros i ls out; simpl; [done|].
  destruct (generate_matches_for_league _ _ _) as [e|[[] lg']] eqn:Hgen; [done| |].
  - destruct (schedule_leagues _ _ _ rest) as [e|[[ok rest'] out']] eqn:Hrest; [done|].
    intros [= -> <- <-].
    destruct (IH _ _ _ Hrest) as (pre & pre' & l & post & -> & -> & Hpre & Hl).
    exists (lg :: pre), (lg' :: pre'), l, post. split_and!; try done.
    + constructor; [by eauto|done].
    + simpl. by rewrite <- Nat.add_succ_comm.
  - intros [= <- <-]. pose proof (generate_returns _ _ _ _ _ Hgen) as Heq.
    simpl in Heq. subst lg'.
    exists [], [], lg, rest. split_and!; try done. simpl. by rewrite Nat.add_0_r.
Qed.

(** *** The further properties on samples *)

Lemma schedule_found_iff_exists_witness :
  (∃ lg', generate_matches_for_league reverse 2 lg4 = inr (true, lg'))
  ↔ ∃ ms, sublist ms (reverse (possible_pairs (teams lg4)))
          ∧ ∀ t, t ∈ teams lg4 → Z.of_nat (matches_played t ms) = 2.
Proof.
  apply (schedule_found_iff_exists reverse reverse_Permutation 2 lg4).
  apply (bool_decide_unpack _). vm_compute. exact I.
Defined.

Lemma outcome_independent_of_shuffle_witness : true = true.
Proof.
  apply (outcome_independent_of_shuffle (λ l, l) reverse 2 lg4
           true (mkLeague "L" [tA; tB; tC; tA2]
                   [(tA, tB); (tA, tC); (tB, tA2); (tC, tA2)])
           true lg4_scheduled).
  - intros l. reflexivity.
  - apply reverse_Permutation.
  - vm_compute. reflexivity.
  - vm_compute. reflexivity.
Defined.

Lemma scheduled_match_count_witness :
  2 * Z.of_nat (length (matches lg4_scheduled)) = 2 * Z.of_nat (length (teams lg4)).
Proof.
  apply (scheduled_match_count reverse reverse_Permutation 2 lg4 lg4_scheduled).
  - apply (bool_decide_unpack _). vm_compute. exact I.
  - vm_compute. reflexivity.
Defined.

Lemma odd_total_never_schedules_witness :
  generate_matches_for_league reverse 1 lg3 = inr (false, lg3).
Proof.
  apply (odd_total_never_schedules reverse reverse_Permutation 1 lg3).
  - apply (bool_decide_unpack _). vm_compute. exact I.
  - reflexivity.
Defined.

Lemma scheduled_matches_within_league_witness :
  league_name lg4_scheduled = league_name lg4 ∧ teams lg4_scheduled = teams lg4
  ∧ ∀ a b, (a, b) ∈ matches lg4_scheduled →
           a ∈ teams lg4 ∧ b ∈ teams lg4 ∧ a ≠ b ∧ id a ≤ id b.
Proof.
  apply (scheduled_matches_within_league reverse reverse_Permutation 2 lg4).
  vm_compute. reflexivity.
Defined.

Lemma too_few_opponents_fails_witness :
  generate_matches_for_league reverse 1 one_region = inr (false, one_region).
Proof.
  apply (too_few_opponents_fails reverse reverse_Permutation 1 one_region
           (mkTeam 1 "d1" "D")).
  - apply (bool_decide_unpack _). vm_compute. exact I.
  - apply (bool_decide_unpack _). vm_compute. exact I.
  - vm_compute. reflexivity.
Defined.

Lemma empty_league_succeeds_witness :
  generate_matches_for_league reverse (-5) lg0 = inr (true, mkLeague "L" [] []).
Proof. apply (empty_league_succeeds reverse (-5) lg0). reflexivity. Defined.

Lemma partition_names_and_order_witness :
  league_name <$> divided_5 = league_label <$> seq 0 (length [3; 2])
  ∧ Forall (λ lg, matches lg = []) divided_5.
Proof.
  apply (partition_names_and_order (λ l, l) (λ k, k) [tA; tB; tC; tA2; tB2]).
  vm_compute. reflexivity.
Defined.

Lemma partition_never_overfills_witness :
  Forall2 (λ lg size, Z.of_nat (length (teams lg)) ≤ Z.max 0 size) divided_5 [3; 2].
Proof.
  apply (partition_never_overfills (λ l, l) (λ k, k) [tA; tB; tC; tA2; tB2]).
  vm_compute. reflexivity.
Defined.

Lemma partition_fails_iff_short_witness :
  divide_into_leagues reverse (λ k, k) [tA; tB; tC] [1; -4; 1] = inr None.
Proof.
  apply (partition_fails_iff_short reverse (λ k, k) reverse_Permutation).
  vm_compute. reflexivity.
Defined.

Lemma partition_keeps_shuffled_order_witness :
  Forall (λ lg, sublist (teams lg) [tA; tB; tC; tA2; tB2]) divided_5.
Proof.
  apply (partition_keeps_shuffled_order (λ l, l) (λ k, k) [tA; tB; tC; tA2; tB2] [3; 2]).
  vm_compute. reflexivity.
Defined.

Lemma rotate_permutes {A} n (l : list A) : rotate n l ≡ₚ l.
Proof.
  unfold rotate. rewrite Permutation_app_comm. by rewrite take_drop.
Qed.

Lemma turning_permutes : permuting turning.
Proof. split; simpl; [intros a l; apply rotate_permutes|done]. Qed.

Lemma plain_permutes : permuting plain.
Proof. by split. Qed.

Lemma catalog_partition_succeeds_witness :
  ∃ ls, divide_into_leagues (λ l, l) (λ k, k) create_teams LEAGUE_SIZES = inr (Some ls)
        ∧ Forall2 (λ lg size, Z.of_nat (length (teams lg)) = size) ls LEAGUE_SIZES
        ∧ Forall (λ lg, NoDup (id <$> teams lg)) ls.
Proof.
  apply (catalog_partition_succeeds REGION_DEFINITIONS LEAGUE_SIZES plain
           plain_permutes) with (a := 0%nat).
  - repeat constructor; lia.
  - reflexivity.
Defined.

Lemma main_reports_valid_configuration_witness :
  placed turning_leagues ≡ₚ create_teams
  ∧ Forall2 (λ lg size, Z.of_nat (length (teams lg)) = size) turning_leagues LEAGUE_SIZES
  ∧ Forall (valid_schedule MATCHES_PER_TEAM) turning_leagues.
Proof.
  apply (main_reports_valid_configuration REGION_DEFINITIONS LEAGUE_SIZES
           MATCHES_PER_TEAM turning turning_permutes) with (fuel := 300%nat)
           (out := turning_out).
  - repeat constructor; lia.
  - reflexivity.
  - vm_compute. reflexivity.
Defined.

Lemma main_never_returns_when_odd_witness :
  ∃ out, main_with odd_regions [3] 1 plain 4 = inr (None, out).
Proof.
  apply (main_never_returns_when_odd odd_regions [3] 1 plain plain_permutes).
  - repeat constructor; lia.
  - reflexivity.
  - reflexivity.
  - exists 3. split; [constructor|reflexivity].
Defined.

Lemma trial_stops_at_first_failure_witness :
  ∃ pre pre' lg post,
    [two_teams; lg3; lg4] = pre ++ lg :: post
    ∧ [mkLeague "L" [tA; tB] [(tA, tB)]; lg3; lg4] = pre' ++ lg :: post
    ∧ Forall2 (λ l l', ∃ j, generate_matches_for_league (shuffle_of plain 1 j) 1 l
                            = inr (true, l')) pre pre'
    ∧ generate_matches_for_league (shuffle_of plain 1 (0 + length pre)%nat) 1 lg
      = inr (false, lg).
Proof.
  eapply (trial_stops_at_first_failure (shuffle_of plain 1) 1
            [two_teams; lg3; lg4] 0).
  vm_compute. reflexivity.
Defined.
